(** * batch-graphql: the bounded concurrent dispatch engine

    A shallow embedding of package [batch] (client.go, stats.go, config.go and
    the file that holds [Run] and [RunWith]) and the properties of it that
    the specification states.

    Conventions.
    - Go's [int], [int64] and [time.Duration] are [Z] with the 64-bit
      wrap-around written out ([wrap64]).
    - A Go [error] is its message.
    - What the program calls in other packages (encoding/json, net/http,
      net/textproto) is the class [GoLib]: every theorem holds for any
      behaviour of these functions, except where a hypothesis says otherwise.
    - Goroutines are threads of an interleaving semantics ([Run.step]): one
      event is one atomic action on the shared state.
    - A [map[string]any] is [Variables], [None] when the map is nil.
    - The input is the list of the values its [json.Decoder] meets
      ([Run.Decoded]), the end of the list being [io.EOF]; the error the
      decoder keeps after a syntax error or an error of its reader is
      [Run.dec_err]. *)

From Stdlib Require Import ZArith Lia List String Ascii Permutation Floats.
From stdpp Require Import gmap strings list pretty.

Local Open Scope string_scope.
Local Open Scope list_scope.
Local Open Scope Z_scope.

(** ** Machine integers and errors *)

Definition wrap64 (z : Z) : Z := (z + 2 ^ 63) mod 2 ^ 64 - 2 ^ 63.

Definition error := string.

Inductive errorOr (A : Type) : Type :=
| Ok (a : A)
| Failed (e : error).
Arguments Ok {A} a.
Arguments Failed {A} e.

(** ** JSON values ([any] as encoding/json produces it) *)

Set Warnings "-register-all".

Inductive json : Type :=
| JNull
| JBool (b : bool)
| JNumber (literal : string)
| JString (s : string)
| JArray (items : list json)
| JObject (fields : list (string * json)).

(** [map[string]any]: one variable set, or one decoded response. A nil map
    is [None]: it is what [Decode] leaves for the JSON value [null], and it
    is encoded as [null], where the empty map [Some []] is encoded as [{}]. *)
Definition Variables := option (list (string * json)).

(** The three shapes of the [response any] that [processRequest] returns:
    [nil], [string(bytes)] and the decoded map (nil for the body [null]). *)
Inductive any : Type :=
| ANil
| AString (s : string)
| AMap (m : Variables).

(** ** net/http *)

(** [http.Header]: canonical key to the values added under it. *)
Abbreviation Header := (gmap string (list string)).

Inductive HTTPResult : Type :=
| TransportError (e : error)
| Response (StatusCode : Z) (Body : string).

(** config.go *)
Record OAuthConfig := {
  oauth_URL : string;
  ClientID : string;
  ClientSecret : string;
  Scope : string
}.

Record Config := {
  URL : string;
  Connections : Z;
  Verbose : bool;
  Headers : list string;
  BearerToken : string;
  OAuth : OAuthConfig;
  QueryFile : string;
  InputFile : string;
  OutputFile : string;
  ErrorFile : string
}.

(** What goes out on the network: the login exchange of [login] and the
    GraphQL call of [Do]. *)
Inductive Request : Type :=
| LoginRequest (o : OAuthConfig)
| GraphQLRequest (url : string) (hdr : Header) (body : string).

(** The functions of other packages the program calls. *)
Class GoLib := {
  (** [textproto.CanonicalMIMEHeaderKey], applied by [Header.Add] and
      [Header.Set] *)
  canon : string -> string;
  (** the error of [http.NewRequest] on a URL it cannot parse *)
  url_error : string -> option error;
  (** [json.Marshal(requestParameters{query, variables})] *)
  marshal_request : string -> Variables -> errorOr string;
  (** [json.NewDecoder(body).Decode] into the login response struct:
      [access_token] and [expires_in] *)
  decode_login : string -> errorOr (string * Z);
  (** [json.NewDecoder(body).Decode] into a [map[string]any] *)
  decode_object : string -> errorOr Variables;
  (** [textproto.Reader.ReadMIMEHeader] on the joined header lines *)
  ReadMIMEHeader : string -> errorOr (list (string * list string))
}.

(** ** stats.go *)

Module Stats.

(** The two implementations of interface [Stats]. *)
Inductive Stats : Type :=
| SilentStats
| VerboseStats (processed errors : Z).

Definition AddProcessed (s : Stats) : Stats :=
  match s with
  | SilentStats => SilentStats
  | VerboseStats p e => VerboseStats (wrap64 (p + 1)) e
  end.

Definition AddError (s : Stats) : Stats :=
  match s with
  | SilentStats => SilentStats
  | VerboseStats p e => VerboseStats p (wrap64 (e + 1))
  end.

Definition Values (s : Stats) : Z * Z :=
  match s with
  | SilentStats => (0, 0)
  | VerboseStats p e => (p, e)
  end.

(** [PrintStats]: the goroutine it starts only reads [Values] and prints. *)
Definition PrintStats (verbose : bool) : Stats :=
  if verbose then VerboseStats 0 0 else SilentStats.

End Stats.

(** ** client.go *)

Module Client.

Record Transport := {
  MaxConnsPerHost : Z;
  MaxIdleConns : Z;
  MaxIdleConnsPerHost : Z
}.

(** [header] lists the entries of the [http.Header] map in the order the
    [range] loop of [Do] visits them (Go leaves that order open). *)
Record Client := {
  transport : Transport;
  query : string;
  url : string;
  header : list (string * list string);
  oauth : option OAuthConfig;
  token : option string
}.

(** The client together with what it shares with the runtime: the clock (in
    nanoseconds), the deadlines of the pending [time.AfterFunc] callbacks of
    [login], and the requests sent so far. *)
Record World := {
  client : Client;
  clock : Z;
  timers : list Z;
  wire : list Request
}.

Definition set_token (t : option string) (w : World) : World :=
  {| client := {| transport := transport (client w); query := query (client w);
                  url := url (client w); header := header (client w);
                  oauth := oauth (client w); token := t |};
     clock := clock w; timers := timers w; wire := wire w |}.

Definition send (r : Request) (w : World) : World :=
  {| client := client w; clock := clock w; timers := timers w;
     wire := wire w ++ [r] |}.

(** [time.AfterFunc(d, f)] at the current clock. *)
Definition AfterFunc (d : Z) (w : World) : World :=
  {| client := client w; clock := clock w; timers := timers w ++ [clock w + d];
     wire := wire w |}.

(** The callbacks whose deadline has passed run: each sets [c.token = nil]. *)
Definition fire_timers (w : World) : World :=
  match filter (fun d => d <= clock w) (timers w) with
  | [] => w
  | _ :: _ =>
      let w' := set_token None w in
      {| client := client w'; clock := clock w;
         timers := filter (fun d => ~ d <= clock w) (timers w); wire := wire w |}
  end.

(** [dt] nanoseconds pass. *)
Definition advance (dt : Z) (w : World) : World :=
  fire_timers {| client := client w; clock := clock w + dt; timers := timers w;
                 wire := wire w |}.

(** [math.Floor(float64(n) * 0.9)]: for |n| < 2^50 the rounded product lies
    in the unit interval of 9n/10, so the floor is the integer quotient. *)
Definition floor90 (n : Z) : Z := 9 * n / 10.

(** The same product as the program computes it, in binary64: [float64(n)]
    times the double nearest to 0.9, and its floor read off the mantissa and
    the exponent. *)
Definition floor_of (f : float) : option Z :=
  match Prim2SF f with
  | S754_zero _ => Some 0
  | S754_finite negative m e =>
      let scale := 2 ^ (- e) in
      Some (if 0 <=? e then (if negative then - (Z.pos m * 2 ^ e) else Z.pos m * 2 ^ e)
            else if negative then - ((Z.pos m + scale - 1) / scale)
            else Z.pos m / scale)
  | _ => None
  end.

Definition float64 (n : Z) : float :=
  if n <? 0 then PrimFloat.opp (PrimFloat.of_uint63 (Uint63.of_Z (- n)))
  else PrimFloat.of_uint63 (Uint63.of_Z n).

Definition floor90_float (n : Z) : option Z :=
  floor_of (PrimFloat.mul (float64 n) 0x1.ccccccccccccdp-1%float).

Definition Second : Z := 1000000000.

(** [time.Duration(math.Floor(float64(resp.ExpiresIn)*0.9)) * time.Second] *)
Definition expiresIn90p (ExpiresIn : Z) : Z := wrap64 (floor90 ExpiresIn * Second).

Section WithLib.
Context `{GoLib}.

(** [NewClient] *)
Definition CRLF : string := String (ascii_of_nat 13) (String (ascii_of_nat 10) EmptyString).

Definition NewClient (config : Config) (query : string) : errorOr Client :=
  let transport :=
    {| MaxConnsPerHost := Connections config; MaxIdleConns := Connections config;
       MaxIdleConnsPerHost := Connections config |} in
  let make header :=
    {| transport := transport; query := query; url := URL config; header := header;
       oauth := if decide (oauth_URL (OAuth config) = "") then None else Some (OAuth config);
       token := if decide (BearerToken config = "") then None else Some (BearerToken config) |} in
  match Headers config with
  | [] => Ok (make [])
  | _ :: _ =>
      match ReadMIMEHeader (String.concat CRLF (Headers config) +:+ CRLF +:+ CRLF) with
      | Failed e => Failed e
      | Ok mimeHeader => Ok (make mimeHeader)
      end
  end.

(** [login]: called with [c.mu] held, [o] is [c.oauth]. *)
Definition login (o : OAuthConfig) (w : World) (reply : HTTPResult) : World * errorOr string :=
  match url_error (oauth_URL o) with
  | Some e => (w, Failed e)
  | None =>
      let w1 := send (LoginRequest o) w in
      match reply with
      | TransportError e => (w1, Failed e)
      | Response StatusCode Body =>
          if decide (StatusCode = 200) then
            match decode_login Body with
            | Failed e => (w1, Failed e)
            | Ok (AccessToken, ExpiresIn) =>
                if decide (AccessToken = "") then
                  (w1, Failed "login response did not include access token")
                else (AfterFunc (expiresIn90p ExpiresIn) w1, Ok AccessToken)
            end
          else
            (w1, Failed ("invalid status code " +:+ pretty StatusCode +:+ " during login"))
      end
  end.

(** [ensureValidToken]. The read under [RLock] and the section under [Lock]
    are one atomic action here: the section re-reads [c.token], so the result
    is that of running both at the moment the lock is taken. *)
Definition ensureValidToken (w : World) (login_reply : HTTPResult) : World * errorOr string :=
  match oauth (client w) with
  | None =>
      match token (client w) with
      | None => (w, Ok "")
      | Some t => (w, Ok t)
      end
  | Some o =>
      let token0 := match token (client w) with Some t => t | None => "" end in
      if decide (token0 = "") then
        match token (client w) with
        | Some t => (w, Ok t)
        | None =>
            let (w1, r) := login o w login_reply in
            match r with
            | Failed e => (w1, Failed e)
            | Ok t => (set_token (Some t) w1, Ok t)
            end
        end
      else (w, Ok token0)
  end.

(** [Header.Add] and [Header.Set] *)
Definition Header_Add (k v : string) (h : Header) : Header :=
  <[canon k := default [] (h !! canon k) ++ [v]]> h.

Definition Header_Set (k v : string) (h : Header) : Header :=
  <[canon k := [v]]> h.

(** The two nested [range] loops of [Do]. *)
Definition add_values (hk : string) (hv : list string) (h : Header) : Header :=
  foldl (fun h v => Header_Add hk v h) h hv.

Definition add_headers (hs : list (string * list string)) (h : Header) : Header :=
  foldl (fun h kv => add_values kv.1 kv.2 h) h hs.

Definition request_header (c : Client) (token : string) : Header :=
  let h := add_headers (header c) ∅ in
  let h := Header_Set "Content-Type" "application/json" h in
  if decide (token = "") then h else Header_Set "Authorization" ("Bearer " +:+ token) h.

(** [Do]: the body it returns ([io.ReadCloser] or nil) and the error.
    [login_reply] answers the login exchange if one is made, [reply] the
    GraphQL call. *)
Definition Do (w : World) (variables : Variables) (login_reply reply : HTTPResult)
  : World * (option string * option error) :=
  let (w1, t) := ensureValidToken w login_reply in
  match t with
  | Failed e => (w1, (None, Some e))
  | Ok token =>
      match marshal_request (query (client w1)) variables with
      | Failed e => (w1, (None, Some e))
      | Ok requestBody =>
          match url_error (url (client w1)) with
          | Some e => (w1, (None, Some e))
          | None =>
              let request :=
                GraphQLRequest (url (client w1)) (request_header (client w1) token) requestBody in
              let w2 := send request w1 in
              match reply with
              | TransportError e => (w2, (None, Some e))
              | Response StatusCode Body =>
                  if decide (StatusCode < 200 \/ 300 <= StatusCode) then
                    (w2, (Some Body, Some ("invalid status code " +:+ pretty StatusCode)))
                  else (w2, (Some Body, None))
              end
          end
      end
  end.

End WithLib.

End Client.

(** ** The file of [Run] and [RunWith] *)

Module Run.
Import Stats Client.

(** One value of the input as [Decode] meets it, [variables] being what
    the call leaves in the map it was given.
    - [Decoded_ok]: the call returns nil; [variables] holds the members of a
      JSON object, or is nil for the value [null].
    - [Decoded_err]: the value is read but does not fit the target (an
      [UnmarshalTypeError]); the call returns the error and the next call
      goes on with the next value.
    - [Decoded_stuck]: the text is no JSON value, or the reader fails; the
      decoder keeps the error (its field [err]) and every later call returns
      it again, without reading further: [io.EOF] is never seen.
    The end of the list is the end of the stream: [io.EOF]. *)
Inductive Decoded : Type :=
| Decoded_ok (variables : Variables)
| Decoded_err (e : error) (variables : Variables)
| Decoded_stuck (e : error).

(** [type result struct] *)
Record result := {
  Row : Z;
  Input : Variables;
  Output : any;
  Error : option error
}.

(** A [json.Encoder] on an output stream: what was written, and the error of
    the writer underneath once it is broken. *)
Record Encoder := {
  written : list result;
  broken : option error
}.

Definition Encode (r : result) (enc : Encoder) : Encoder * option error :=
  match broken enc with
  | Some e => (enc, Some e)
  | None => ({| written := written enc ++ [r]; broken := None |}, None)
  end.

Definition break (e : error) (enc : Encoder) : Encoder :=
  {| written := written enc;
     broken := match broken enc with Some e0 => Some e0 | None => Some e end |}.

(** Where a thread stands inside [writeError] or [writeResponse]: each
    constructor is the atomic action it performs next. *)
Inductive WritePC : Type :=
| ErrAddError (r : result)
| ErrAddProcessed (r : result)
| ErrEncode (r : result)
| RespAddProcessed (r : result)
| RespEncode (r : result).

(** The loop of [RunWith]. *)
Inductive MainPC : Type :=
| AtDecode
| InDecodeError (w : WritePC) (variables : Variables)
| AtAcquire (variables : Variables)
| InAcquireError (w : WritePC) (variables : Variables)
| AtWait
| Returned (err : option error).

(** The goroutine of one row. *)
Inductive WorkerPC : Type :=
| InCall
| InWrite (w : WritePC)
| AtRelease
| AtDone
| Finished.

Record Worker := {
  g_row : Z;
  g_variables : Variables;
  g_pc : WorkerPC
}.

(** The process during [RunWith]: the input not yet decoded and the error
    the decoder has kept, if any, the locals of
    the loop ([row], and [variables] inside [main]), the semaphore
    ([size] and [cur] of [semaphore.Weighted]), [ctx.Err()], the statistics,
    the two encoders, the client, where the loop and each goroutine stand
    (the goroutines in the order they were started), and the panic that
    ended the process, if any. *)
Record State := {
  input : list Decoded;
  dec_err : option error;
  row : Z;
  sem_size : Z;
  sem_cur : Z;
  ctx_err : option error;
  stats : Stats;
  output : Encoder;
  errOutput : Encoder;
  world : World;
  main : MainPC;
  workers : list Worker;
  crashed : option error
}.

Definition set_input (x : list Decoded) (s : State) : State :=
  {| input := x; dec_err := dec_err s; row := row s; sem_size := sem_size s; sem_cur := sem_cur s;
     ctx_err := ctx_err s; stats := stats s; output := output s;
     errOutput := errOutput s; world := world s; main := main s;
     workers := workers s; crashed := crashed s |}.

Definition set_dec_err (x : option error) (s : State) : State :=
  {| input := input s; dec_err := x; row := row s; sem_size := sem_size s; sem_cur := sem_cur s;
     ctx_err := ctx_err s; stats := stats s; output := output s;
     errOutput := errOutput s; world := world s; main := main s;
     workers := workers s; crashed := crashed s |}.

Definition set_row (x : Z) (s : State) : State :=
  {| input := input s; dec_err := dec_err s; row := x; sem_size := sem_size s; sem_cur := sem_cur s;
     ctx_err := ctx_err s; stats := stats s; output := output s;
     errOutput := errOutput s; world := world s; main := main s;
     workers := workers s; crashed := crashed s |}.

Definition set_sem_cur (x : Z) (s : State) : State :=
  {| input := input s; dec_err := dec_err s; row := row s; sem_size := sem_size s; sem_cur := x;
     ctx_err := ctx_err s; stats := stats s; output := output s;
     errOutput := errOutput s; world := world s; main := main s;
     workers := workers s; crashed := crashed s |}.

Definition set_ctx_err (x : option error) (s : State) : State :=
  {| input := input s; dec_err := dec_err s; row := row s; sem_size := sem_size s; sem_cur := sem_cur s;
     ctx_err := x; stats := stats s; output := output s;
     errOutput := errOutput s; world := world s; main := main s;
     workers := workers s; crashed := crashed s |}.

Definition set_stats (x : Stats) (s : State) : State :=
  {| input := input s; dec_err := dec_err s; row := row s; sem_size := sem_size s; sem_cur := sem_cur s;
     ctx_err := ctx_err s; stats := x; output := output s;
     errOutput := errOutput s; world := world s; main := main s;
     workers := workers s; crashed := crashed s |}.

Definition set_output (x : Encoder) (s : State) : State :=
  {| input := input s; dec_err := dec_err s; row := row s; sem_size := sem_size s; sem_cur := sem_cur s;
     ctx_err := ctx_err s; stats := stats s; output := x;
     errOutput := errOutput s; world := world s; main := main s;
     workers := workers s; crashed := crashed s |}.

Definition set_errOutput (x : Encoder) (s : State) : State :=
  {| input := input s; dec_err := dec_err s; row := row s; sem_size := sem_size s; sem_cur := sem_cur s;
     ctx_err := ctx_err s; stats := stats s; output := output s;
     errOutput := x; world := world s; main := main s;
     workers := workers s; crashed := crashed s |}.

Definition set_world (x : World) (s : State) : State :=
  {| input := input s; dec_err := dec_err s; row := row s; sem_size := sem_size s; sem_cur := sem_cur s;
     ctx_err := ctx_err s; stats := stats s; output := output s;
     errOutput := errOutput s; world := x; main := main s;
     workers := workers s; crashed := crashed s |}.

Definition set_main (x : MainPC) (s : State) : State :=
  {| input := input s; dec_err := dec_err s; row := row s; sem_size := sem_size s; sem_cur := sem_cur s;
     ctx_err := ctx_err s; stats := stats s; output := output s;
     errOutput := errOutput s; world := world s; main := x;
     workers := workers s; crashed := crashed s |}.

Definition set_workers (x : list Worker) (s : State) : State :=
  {| input := input s; dec_err := dec_err s; row := row s; sem_size := sem_size s; sem_cur := sem_cur s;
     ctx_err := ctx_err s; stats := stats s; output := output s;
     errOutput := errOutput s; world := world s; main := main s;
     workers := x; crashed := crashed s |}.

Definition set_crashed (x : option error) (s : State) : State :=
  {| input := input s; dec_err := dec_err s; row := row s; sem_size := sem_size s; sem_cur := sem_cur s;
     ctx_err := ctx_err s; stats := stats s; output := output s;
     errOutput := errOutput s; world := world s; main := main s;
     workers := workers s; crashed := x |}.

Definition set_pc (pc : WorkerPC) (g : Worker) : Worker :=
  {| g_row := g_row g; g_variables := g_variables g; g_pc := pc |}.

(** [writeError] and [writeResponse], one atomic action at a time. *)
Inductive WriteNext : Type :=
| Continue (w : WritePC)
| Finish (err : option error).

Definition write_step (w : WritePC) (s : State) : State * WriteNext :=
  match w with
  | ErrAddError r => (set_stats (AddError (stats s)) s, Continue (ErrAddProcessed r))
  | ErrAddProcessed r => (set_stats (AddProcessed (stats s)) s, Continue (ErrEncode r))
  | ErrEncode r =>
      let (enc, err) := Encode r (errOutput s) in (set_errOutput enc s, Finish err)
  | RespAddProcessed r => (set_stats (AddProcessed (stats s)) s, Continue (RespEncode r))
  | RespEncode r =>
      let (enc, err) := Encode r (output s) in (set_output enc s, Finish err)
  end.

(** [writeError(err, input, response, errOutput, row, stats)] and
    [writeResponse(input, response, output, row, stats)] at their first
    action; [write_step] runs them. *)
Definition writeError (err : error) (input : Variables) (response : any)
    (row : Z) : WritePC :=
  ErrAddError {| Row := row; Input := input; Output := response; Error := Some err |}.

Definition writeResponse (input : Variables) (response : any) (row : Z) : WritePC :=
  RespAddProcessed {| Row := row; Input := input; Output := response; Error := None |}.

(** [checkAndWriteError(err, errOutput, row, stats)] with [err != nil]: the
    input it passes on is the nil map. *)
Definition checkAndWriteError (err : error) (row : Z) : WritePC :=
  writeError err None ANil row.

(** [wg.Add(1); go func(variables, row) {...}(variables, row)] *)
Definition launch (variables : Variables) (s : State) : State :=
  set_workers
    (workers s ++ [{| g_row := row s; g_variables := variables; g_pc := InCall |}]) s.

Definition finished (g : Worker) : bool :=
  match g_pc g with Finished => true | _ => false end.

(** The next atomic action of the loop of [RunWith]; [None] when it is
    blocked (in [Acquire] or in [wg.Wait]) or has returned. [Acquire] failing
    with the context's error is [acquire_fails]. At [Decode] the map is the
    fresh [map[string]any{}] of the iteration, which a call that returns the
    decoder's kept error does not touch. *)
Definition main_step (s : State) : option State :=
  match main s with
  | AtDecode =>
      let row' := wrap64 (row s + 1) in
      match dec_err s with
      | Some e =>
          Some (set_main (InDecodeError (checkAndWriteError e row') (Some []))
                  (set_row row' s))
      | None =>
          match input s with
          | [] => Some (set_main AtWait (set_row row' s))
          | Decoded_ok variables :: rest =>
              Some (set_main (AtAcquire variables) (set_input rest (set_row row' s)))
          | Decoded_err e variables :: rest =>
              Some (set_main (InDecodeError (checkAndWriteError e row') variables)
                      (set_input rest (set_row row' s)))
          | Decoded_stuck e :: rest =>
              Some (set_main (InDecodeError (checkAndWriteError e row') (Some []))
                      (set_dec_err (Some e) (set_input rest (set_row row' s))))
          end
      end
  | InDecodeError w variables =>
      let (s1, next) := write_step w s in
      match next with
      | Continue w' => Some (set_main (InDecodeError w' variables) s1)
      | Finish (Some err) => Some (set_main (Returned (Some err)) s1)
      | Finish None => Some (set_main (AtAcquire variables) s1)
      end
  | AtAcquire variables =>
      if decide (sem_size s - sem_cur s >= 1) then
        Some (set_main AtDecode (launch variables (set_sem_cur (sem_cur s + 1) s)))
      else None
  | InAcquireError w variables =>
      let (s1, next) := write_step w s in
      match next with
      | Continue w' => Some (set_main (InAcquireError w' variables) s1)
      | Finish (Some err) => Some (set_main (Returned (Some err)) s1)
      | Finish None => Some (set_main AtDecode (launch variables s1))
      end
  | AtWait =>
      if forallb finished (workers s) then Some (set_main (Returned None) s) else None
  | Returned _ => None
  end.

(** [sm.Acquire(ctx, 1)] returns [ctx.Err()]: possible once the context is
    done. Whether a free permit or a done context wins when both hold is left
    to the semaphore; both moves are enabled then. *)
Definition acquire_fails (s : State) : option State :=
  match main s, ctx_err s with
  | AtAcquire variables, Some err =>
      Some (set_main (InAcquireError (checkAndWriteError err (row s)) variables) s)
  | _, _ => None
  end.

Section WithLib.
Context `{GoLib}.

(** [processRequest] *)
Definition processRequest (w : World) (variables : Variables)
    (login_reply reply : HTTPResult) : World * (any * option error) :=
  let '(w1, (responseBody, err)) := Do w variables login_reply reply in
  match err with
  | Some e =>
      let response := match responseBody with Some b => b | None => "" end in
      (w1, (AString response, Some e))
  | None =>
      match decode_object (match responseBody with Some b => b | None => "" end) with
      | Failed e => (w1, (ANil, Some e))
      | Ok response => (w1, (AMap response, None))
      end
  end.

(** The goroutine's call: [processRequest] and the choice of the write. *)
Definition call_step (i : nat) (login_reply reply : HTTPResult) (s : State) : option State :=
  match workers s !! i with
  | Some g =>
      match g_pc g with
      | InCall =>
          let '(w1, (response, err)) :=
            processRequest (world s) (g_variables g) login_reply reply in
          let pc := match err with
                    | Some e =>
                        InWrite (writeError e (g_variables g) response (g_row g))
                    | None =>
                        InWrite (writeResponse (g_variables g) response (g_row g))
                    end in
          Some (set_workers (<[i := set_pc pc g]> (workers s)) (set_world w1 s))
      | _ => None
      end
  | None => None
  end.

(** The goroutine's other actions: the write, then the deferred
    [sm.Release(1)] and [wg.Done()]. A failed write panics, and so does
    releasing more than is held. *)
Definition worker_step (i : nat) (s : State) : option State :=
  match workers s !! i with
  | Some g =>
      let goto pc s := set_workers (<[i := set_pc pc g]> (workers s)) s in
      match g_pc g with
      | InCall => None
      | InWrite w =>
          let (s1, next) := write_step w s in
          match next with
          | Continue w' => Some (goto (InWrite w') s1)
          | Finish (Some err) => Some (set_crashed (Some err) s1)
          | Finish None => Some (goto AtRelease s1)
          end
      | AtRelease =>
          let cur := sem_cur s - 1 in
          if decide (cur < 0) then
            Some (set_crashed (Some "semaphore: released more than held")
                    (set_sem_cur cur s))
          else Some (goto AtDone (set_sem_cur cur s))
      | AtDone => Some (goto Finished s)
      | Finished => None
      end
  | None => None
  end.

(** What can happen next. *)
Inductive Event : Type :=
| EvMain
| EvAcquireFails
| EvCall (i : nat) (login_reply reply : HTTPResult)
| EvWorker (i : nat)
| EvCancel (err : error)
| EvTick (dt : Z)
| EvBreakOutput (e : error)
| EvBreakErrOutput (e : error).

(** The process is over once [RunWith] has returned or a goroutine has
    panicked. *)
Definition halted (s : State) : bool :=
  match main s, crashed s with
  | Returned _, _ => true
  | _, Some _ => true
  | _, None => false
  end.

Definition step (e : Event) (s : State) : option State :=
  if halted s then None else
  match e with
  | EvMain => main_step s
  | EvAcquireFails => acquire_fails s
  | EvCall i login_reply reply => call_step i login_reply reply s
  | EvWorker i => worker_step i s
  | EvCancel err =>
      match ctx_err s with
      | Some _ => None
      | None => Some (set_ctx_err (Some err) s)
      end
  | EvTick dt => if decide (0 <= dt) then Some (set_world (advance dt (world s)) s) else None
  | EvBreakOutput e => Some (set_output (break e (output s)) s)
  | EvBreakErrOutput e => Some (set_errOutput (break e (errOutput s)) s)
  end.

Fixpoint exec (es : list Event) (s : State) : option State :=
  match es with
  | [] => Some s
  | e :: es' =>
      match step e s with
      | Some s' => exec es' s'
      | None => None
      end
  end.

(** [RunWith(ctx, client, input, output, errOutput, stats, connections)] at
    its first statement: [semaphore.NewWeighted(int64(connections))],
    [row := 0]. The decoder is as [json.NewDecoder] makes it, with no error
    kept. *)
Definition RunWith (w : World) (input : list Decoded) (output errOutput : Encoder)
    (stats : Stats) (connections : Z) : State :=
  {| input := input; dec_err := None; row := 0; sem_size := connections; sem_cur := 0;
     ctx_err := None; stats := stats; output := output; errOutput := errOutput;
     world := w; main := AtDecode; workers := []; crashed := None |}.

(** The files [Run] opens: the query document, the input and the two
    outputs, by name. *)
Record Files := {
  readFile : string -> errorOr string;
  openInput : string -> errorOr (list Decoded);
  openOutput : string -> errorOr Encoder
}.

(** [Run]: the error it returns before [RunWith], or the state [RunWith]
    starts in. *)
Definition Run (fs : Files) (config : Config) : errorOr State :=
  match readFile fs (QueryFile config) with
  | Failed e => Failed e
  | Ok query =>
      match openInput fs (InputFile config) with
      | Failed e => Failed e
      | Ok input =>
          match openOutput fs (OutputFile config) with
          | Failed e => Failed e
          | Ok output =>
              match openOutput fs (ErrorFile config) with
              | Failed e => Failed e
              | Ok errOutput =>
                  match NewClient config query with
                  | Failed e => Failed e
                  | Ok client =>
                      let stats := PrintStats (Verbose config) in
                      Ok (RunWith {| client := client; clock := 0; timers := []; wire := [] |}
                            input output errOutput stats (Connections config))
                  end
              end
          end
      end
  end.

(** The states a run can be in. *)
Definition reachable (s0 s : State) : Prop := exists es, exec es s0 = Some s.

End WithLib.

End Run.

(** ** A concrete library and concrete servers, for the examples *)

Module Sample.
Import Stats Client Run.

Definition is_lower (c : ascii) : bool :=
  ((97 <=? nat_of_ascii c) && (nat_of_ascii c <=? 122))%nat.

Definition is_upper (c : ascii) : bool :=
  ((65 <=? nat_of_ascii c) && (nat_of_ascii c <=? 90))%nat.

Definition is_digit (c : ascii) : bool :=
  ((48 <=? nat_of_ascii c) && (nat_of_ascii c <=? 57))%nat.

Definition to_upper (c : ascii) : ascii :=
  if is_lower c then ascii_of_nat (nat_of_ascii c - 32) else c.

Definition to_lower (c : ascii) : ascii :=
  if is_upper c then ascii_of_nat (nat_of_ascii c + 32) else c.

Fixpoint valid_key (s : string) : bool :=
  match s with
  | EmptyString => true
  | String c s' =>
      (is_lower c || is_upper c || is_digit c || Ascii.eqb c "-" || Ascii.eqb c "_")
      && valid_key s'
  end.

Fixpoint canonical_from (upper : bool) (s : string) : string :=
  match s with
  | EmptyString => EmptyString
  | String c s' =>
      let c' := if upper then to_upper c else to_lower c in
      String c' (canonical_from (Ascii.eqb c' "-") s')
  end.

(** [textproto.CanonicalMIMEHeaderKey] on keys of letters, digits, dashes
    and underscores; any other key is returned as it is. *)
Definition CanonicalMIMEHeaderKey (s : string) : string :=
  if valid_key s then canonical_from true s else s.

(** A login server's bodies and what they decode to. *)
Definition login_bodies : list (string * (string * Z)) :=
  [("hour", ("tok", 3600)); ("second", ("tok", 1)); ("anonymous", ("", 60))].

(** A GraphQL server's bodies and what they decode to. *)
Definition doubled (n : string) : Variables :=
  Some [("data", JObject [("double", JNumber n)])].

Definition response_bodies : list (string * Variables) :=
  [("{}", Some []); ("null", None); ("two", doubled "2"); ("four", doubled "4");
   ("six", doubled "6")].

Fixpoint assoc {A : Type} (k : string) (l : list (string * A)) : option A :=
  match l with
  | [] => None
  | (k', a) :: l' => if decide (k = k') then Some a else assoc k l'
  end.

#[local] Instance lib : GoLib := {
  canon := CanonicalMIMEHeaderKey;
  url_error u := if decide (u = ":") then Some "missing protocol scheme" else None;
  marshal_request q v := Ok q;
  decode_login b :=
    match assoc b login_bodies with Some r => Ok r | None => Failed "invalid character" end;
  decode_object b :=
    match assoc b response_bodies with Some r => Ok r | None => Failed "invalid character" end;
  ReadMIMEHeader s := Ok []
}.

Definition credentials : OAuthConfig :=
  {| oauth_URL := "https://login"; ClientID := "id"; ClientSecret := "secret";
     Scope := "api" |}.

Definition a_client (header : list (string * list string)) (oauth : option OAuthConfig)
    (token : option string) : Client :=
  {| transport := {| MaxConnsPerHost := 1; MaxIdleConns := 1; MaxIdleConnsPerHost := 1 |};
     query := "query Q"; url := "https://api"; header := header; oauth := oauth;
     token := token |}.

Definition a_world (c : Client) : World :=
  {| client := c; clock := 0; timers := []; wire := [] |}.

(** No authorization, two custom headers. *)
Definition plain_world : World :=
  a_world (a_client [("X-Xyz", ["foobar"]); ("Content-Type", ["text/plain"])] None None).

(** A static bearer token together with a custom Authorization header. *)
Definition bearer_world : World :=
  a_world (a_client [("Authorization", ["value"])] None (Some "abc")).

(** The OAuth 2.0 client credentials flow, before the first login. *)
Definition oauth_world : World :=
  a_world (a_client [] (Some credentials) None).

Definition no_output : Encoder := {| written := []; broken := None |}.

(** A run of [RunWith] with verbose statistics and no authorization. *)
Definition a_run (input : list Decoded) (connections : Z) : State :=
  RunWith (a_world (a_client [] None None)) input no_output no_output
    (PrintStats true) connections.

(** The state a schedule leads to. *)
Definition after (es : list Event) (s : State) : State :=
  match exec es s with
  | Some s' => s'
  | None => s
  end.

(** One record that is not an object, one connection. *)
Definition malformed_run : State :=
  a_run [Decoded_err "json: cannot unmarshal array into Go value" (Some [])] 1.

(** The whole run of it: the loop up to [wg.Wait], the goroutine of row 1
    against a server that answers 200, and the return. *)
Definition malformed_schedule : list Event :=
  [EvMain; EvMain; EvMain; EvMain; EvMain; EvMain;
   EvCall 0 (TransportError "") (Response 200 "{}");
   EvWorker 0; EvWorker 0; EvWorker 0; EvWorker 0; EvMain].

(** Two records, one connection: row 1 is in flight, the loop waits in
    [Acquire] for row 2. *)
Definition waiting_run : State :=
  after [EvMain; EvMain; EvMain] (a_run [Decoded_ok (Some []); Decoded_ok (Some [])] 1).

(** Three records and two connections, against a server that doubles [x]:
    rows 1 and 2 are started, the loop waits in [Acquire] for row 3 until the
    call of row 2 has released its permit, and row 1 completes after that. *)
Definition x_is (n : string) : Variables := Some [("x", JNumber n)].

Definition three_rows : State :=
  a_run [Decoded_ok (x_is "1"); Decoded_ok (x_is "2"); Decoded_ok (x_is "3")] 2.

Definition three_rows_start : list Event := [EvMain; EvMain; EvMain; EvMain; EvMain].

Definition three_rows_finish : list Event :=
  [EvCall 1 (TransportError "") (Response 200 "four");
   EvWorker 1; EvWorker 1; EvWorker 1; EvMain; EvWorker 1; EvMain;
   EvCall 0 (TransportError "") (Response 200 "two");
   EvWorker 0; EvWorker 0; EvWorker 0; EvWorker 0;
   EvCall 2 (TransportError "") (Response 200 "six");
   EvWorker 2; EvWorker 2; EvWorker 2; EvWorker 2; EvMain].

(** The files of a run whose input holds one well-formed record, and its
    configuration. *)
Definition files : Files :=
  {| readFile := fun _ => Ok "query Q";
     openInput := fun _ => Ok [Decoded_ok (Some [])];
     openOutput := fun _ => Ok no_output |}.

Definition config (connections : Z) : Config :=
  {| URL := "https://api"; Connections := connections; Verbose := true; Headers := [];
     BearerToken := ""; OAuth := {| oauth_URL := ""; ClientID := ""; ClientSecret := "";
                                    Scope := "" |};
     QueryFile := "query.graphql"; InputFile := "variables.jsonl"; OutputFile := "";
     ErrorFile := "" |}.

End Sample.

(** ** What the properties speak of *)

Module Observe.
Import Stats Client Run.

Section WithLib.
Context `{GoLib}.

(** The values the [range] loops of [Do] add under the canonical key [K]:
    those of every configured entry whose key canonicalises to [K], in the
    order visited. *)
Definition configured (K : string) (hs : list (string * list string)) : list string :=
  concat (map snd (filter (fun kv => canon kv.1 = K) hs)).

Definition attached (K : string) (hs : list (string * list string)) : option (list string) :=
  match configured K hs with
  | [] => None
  | vs => Some vs
  end.

(** Whether [Do] gets as far as [c.httpClient.Do(request)]: it has a token,
    the request body and the request. *)
Definition call_made (w : World) (variables : Variables) (login_reply : HTTPResult) : bool :=
  match ensureValidToken w login_reply with
  | (_, Failed _) => false
  | (w1, Ok _) =>
      match marshal_request (query (client w1)) variables with
      | Failed _ => false
      | Ok _ =>
          match url_error (url (client w1)) with
          | Some _ => false
          | None => true
          end
      end
  end.

End WithLib.

(** The record a write is about. *)
Definition record_of (w : WritePC) : result :=
  match w with
  | ErrAddError r | ErrAddProcessed r | ErrEncode r
  | RespAddProcessed r | RespEncode r => r
  end.

(** All records written so far, on both streams. *)
Definition records (s : State) : list result :=
  written (output s) ++ written (errOutput s).

(** A write failed: [RunWith] returned the error, or a goroutine panicked
    (that is also how a release of a permit not held ends). *)
Definition failed (s : State) : bool :=
  match crashed s, main s with
  | Some _, _ => true
  | None, Returned (Some _) => true
  | None, _ => false
  end.

(** Counting over the writes in progress, in the loop and in the goroutines. *)
Definition main_count (f : WritePC -> nat) (pc : MainPC) : nat :=
  match pc with
  | InDecodeError w _ | InAcquireError w _ => f w
  | _ => 0%nat
  end.

Definition worker_count (f : WritePC -> nat) (g : Worker) : nat :=
  match g_pc g with
  | InWrite w => f w
  | _ => 0%nat
  end.

Definition in_progress (f : WritePC -> nat) (s : State) : nat :=
  (main_count f (main s) + list_sum (map (worker_count f) (workers s)))%nat.

(** The write has incremented [processed] and not yet written its record. *)
Definition counted_processed (w : WritePC) : nat :=
  match w with
  | ErrEncode _ | RespEncode _ => 1%nat
  | _ => 0%nat
  end.

(** The write has incremented [errors] and not yet written its record. *)
Definition counted_error (w : WritePC) : nat :=
  match w with
  | ErrAddProcessed _ | ErrEncode _ => 1%nat
  | _ => 0%nat
  end.

(** The write is between the two increments of [writeError]. *)
Definition between_increments (w : WritePC) : nat :=
  match w with
  | ErrAddProcessed _ => 1%nat
  | _ => 0%nat
  end.

(** The records written and the writes under way. *)
Definition volume (s : State) : Z :=
  Z.of_nat (length (records s) + in_progress (fun _ => 1%nat) s).

(** What the two counters stand for. *)
Definition processed_due (s : State) : Z :=
  Z.of_nat (length (records s) + in_progress counted_processed s).

Definition errors_due (s : State) : Z :=
  Z.of_nat (length (written (errOutput s)) + in_progress counted_error s).

(** The rows a run owes a record to, when no [Acquire] fails: one for every
    record read, and one more for a record that failed to decode. *)
Fixpoint rows_owed (first : Z) (input : list Decoded) : list Z :=
  match input with
  | [] => []
  | Decoded_ok _ :: rest => first :: rows_owed (first + 1) rest
  | Decoded_err _ _ :: rest | Decoded_stuck _ :: rest =>
      first :: first :: rows_owed (first + 1) rest
  end.

(** The rows of the records not written yet: the write in progress in the
    loop, the goroutine the loop has still to start for the current row, and
    the goroutines that have not written. *)
Definition main_rows (s : State) : list Z :=
  match main s with
  | InDecodeError w _ => [Row (record_of w); row s]
  | AtAcquire _ => [row s]
  | InAcquireError w _ => [Row (record_of w); row s]
  | _ => []
  end.

Definition worker_rows (g : Worker) : list Z :=
  match g_pc g with
  | InCall => [g_row g]
  | InWrite w => [Row (record_of w)]
  | _ => []
  end.

Definition rows_pending (s : State) : list Z :=
  main_rows s ++ flat_map worker_rows (workers s).

(** The loop has seen [io.EOF]. *)
Definition at_end (pc : MainPC) : bool :=
  match pc with
  | AtWait | Returned _ => true
  | _ => false
  end.

(** While the decoder has kept no error, the context is not done and no
    write has failed: the loop has read a prefix of the input, [row] counts
    it, and the records written or still to be written are the rows that
    prefix is owed. *)
Definition rows_ok (input0 : list Decoded) (s : State) : Prop :=
  dec_err s = None -> ctx_err s = None -> failed s = false ->
  exists consumed,
    input0 = consumed ++ input s /\
    row s = Z.of_nat (length consumed) + (if at_end (main s) then 1 else 0) /\
    (at_end (main s) = true -> input s = []) /\
    (forall w variables, main s <> InAcquireError w variables) /\
    map Row (records s) ++ rows_pending s ≡ₚ rows_owed 1 consumed.

(** The counters count the records written and the writes under way. *)
Definition counters_ok (s : State) : Prop :=
  failed s = false ->
  forall p e, stats s = VerboseStats p e ->
    p = wrap64 (processed_due s) /\ e = wrap64 (errors_due s).

(** The schedule that runs the rows one after the other: the loop reads
    the next record and starts goroutine [k], whose call fails in transport
    and which writes its failure record, releases its permit and is done;
    after the last row the loop sees [io.EOF] and returns. *)
Definition row_schedule (k : nat) : list Event :=
  [EvMain; EvMain; EvCall k (TransportError "") (TransportError "unreachable");
   EvWorker k; EvWorker k; EvWorker k; EvWorker k; EvWorker k].

Fixpoint sequential_schedule (k n : nat) : list Event :=
  match n with
  | O => [EvMain; EvMain]
  | S n' => row_schedule k ++ sequential_schedule (S k) n'
  end.



(** The loop is at its top, nothing is in flight, nothing has gone wrong. *)
Definition quiet (s : State) : Prop :=
  main s = AtDecode /\ forallb finished (workers s) = true /\ sem_cur s = 0 /\
  1 <= sem_size s /\ crashed s = None /\ ctx_err s = None /\
  broken (errOutput s) = None /\ dec_err s = None.


Definition all_decoded (input : list Decoded) : bool :=
  forallb (fun d => match d with Decoded_ok _ => true | _ => false end) input.

Definition set_Connections (n : Z) (c : Config) : Config :=
  {| URL := URL c; Connections := n; Verbose := Verbose c; Headers := Headers c;
     BearerToken := BearerToken c; OAuth := OAuth c; QueryFile := QueryFile c;
     InputFile := InputFile c; OutputFile := OutputFile c; ErrorFile := ErrorFile c |}.

Definition is_error {A : Type} (r : errorOr A) : bool :=
  match r with Ok _ => false | Failed _ => true end.

End Observe.

(** ** The files of [Run] *)

Module Startup.
Import Stats Client Run.

(** An open file as its readers see it: the bytes they get, and the error
    that ends the reading, if any. *)
Record File := {
  content : string;
  read_error : option error
}.

(** What [Run] asks of the operating system: [filepath.Clean], [os.Open],
    [os.Create] (with the encoder put on the new file), the three standard
    streams, and the [Decode] calls a [json.NewDecoder] on a reader yields. *)
Record OS := {
  Clean : string -> string;
  Open : string -> errorOr File;
  Create : string -> errorOr Encoder;
  Stdin : File;
  Stdout : Encoder;
  Stderr : Encoder;
  NewDecoder : File -> list Decoded
}.

(** The calls that open or create a file, in the order they are made. *)
Inductive Syscall : Type :=
| SysOpen (path : string)
| SysCreate (path : string).

Definition created (calls : list Syscall) : list string :=
  flat_map (fun c => match c with SysCreate path => [path] | SysOpen _ => [] end) calls.

(** [readFile]: the content read, and the error of [os.Open] or of
    [io.ReadAll]. *)
Definition readFile (os : OS) (name : string) : list Syscall * (string * option error) :=
  let path := Clean os name in
  ([SysOpen path],
   match Open os path with
   | Failed e => ("", Some e)
   | Ok f => (content f, read_error f)
   end).

(** [openInput] *)
Definition openInput (os : OS) (inputFile : string) : list Syscall * errorOr (list Decoded) :=
  if decide (inputFile = "") then ([], Ok (NewDecoder os (Stdin os)))
  else
    let path := Clean os inputFile in
    ([SysOpen path],
     match Open os path with
     | Failed e => Failed e
     | Ok f => Ok (NewDecoder os f)
     end).

(** [openOutput] *)
Definition openOutput (os : OS) (outputFile : string) (defaultWriter : Encoder)
  : list Syscall * errorOr Encoder :=
  if decide (outputFile = "") then ([], Ok defaultWriter)
  else
    let path := Clean os outputFile in
    ([SysCreate path],
     match Create os path with
     | Failed e => Failed e
     | Ok enc => Ok enc
     end).

Section WithLib.
Context `{GoLib}.

(** [Run] with its three helpers as above: the files it has opened and
    created, and the error it returns before [RunWith] or the state
    [RunWith] starts in. *)
Definition Run (os : OS) (config : Config) : list Syscall * errorOr State :=
  let '(c1, (query, err)) := readFile os (QueryFile config) in
  match err with
  | Some e => (c1, Failed e)
  | None =>
      let (c2, input) := openInput os (InputFile config) in
      match input with
      | Failed e => (c1 ++ c2, Failed e)
      | Ok input =>
          let (c3, output) := openOutput os (OutputFile config) (Stdout os) in
          match output with
          | Failed e => (c1 ++ c2 ++ c3, Failed e)
          | Ok output =>
              let (c4, errOutput) := openOutput os (ErrorFile config) (Stderr os) in
              match errOutput with
              | Failed e => (c1 ++ c2 ++ c3 ++ c4, Failed e)
              | Ok errOutput =>
                  match NewClient config query with
                  | Failed e => (c1 ++ c2 ++ c3 ++ c4, Failed e)
                  | Ok client =>
                      let stats := PrintStats (Verbose config) in
                      (c1 ++ c2 ++ c3 ++ c4,
                       Ok (RunWith {| client := client; clock := 0; timers := []; wire := [] |}
                             input output errOutput stats (Connections config)))
                  end
              end
          end
      end
  end.

End WithLib.

(** The same helpers as the [Files] of [Run.Run], when both outputs default
    to one stream. *)
Definition files_of (os : OS) : Files :=
  {| Run.readFile := fun name =>
       match (readFile os name).2 with
       | (_, Some e) => Failed e
       | (query, None) => Ok query
       end;
     Run.openInput := fun name => (openInput os name).2;
     Run.openOutput := fun name => (openOutput os name (Stdout os)).2 |}.

(** The named file, if one is named. *)
Definition named (os : OS) (name : string) : list string :=
  if decide (name = "") then [] else [Clean os name].

End Startup.

(** ** What the further properties speak of *)

Module Invariants.
Import Stats Client Run Observe.

(** The variable set a [Decode] call leaves in [variables]. *)
Definition vars_of (d : Decoded) : Variables :=
  match d with
  | Decoded_ok variables | Decoded_err _ variables => variables
  | Decoded_stuck _ => Some []
  end.

(** The value is one the decoder gets stuck on. *)
Definition is_stuck (d : Decoded) : bool :=
  match d with
  | Decoded_stuck _ => true
  | _ => false
  end.

(** The goroutine has not yet run its deferred [sm.Release(1)]. *)
Definition holding (g : Worker) : nat :=
  match g_pc g with
  | InCall | InWrite _ | AtRelease => 1%nat
  | _ => 0%nat
  end.

Definition in_flight (s : State) : nat := list_sum (map holding (workers s)).

(** While no [Acquire] has failed, the permits held are those of the
    goroutines that have not released theirs, and never more than the
    semaphore has. *)
Definition permits_ok (s : State) : Prop :=
  ctx_err s = None ->
  sem_cur s = Z.of_nat (in_flight s) /\ sem_cur s <= Z.max 0 (sem_size s) /\
  forall w variables, main s <> InAcquireError w variables.



(** The goroutine is past [processRequest]. *)
Definition called (g : Worker) : nat :=
  match g_pc g with
  | InCall => 0%nat
  | _ => 1%nat
  end.

Definition is_graphql (r : Request) : bool :=
  match r with
  | GraphQLRequest _ _ _ => true
  | LoginRequest _ => false
  end.

Definition is_map (a : any) : bool :=
  match a with
  | AMap _ => true
  | _ => false
  end.

(** The write is one of [writeError]. *)
Definition is_error_write (w : WritePC) : bool :=
  match w with
  | ErrAddError _ | ErrAddProcessed _ | ErrEncode _ => true
  | RespAddProcessed _ | RespEncode _ => false
  end.

(** The write the loop is in, if any, is one of [writeError]. *)
Definition main_error_write (s : State) : Prop :=
  match main s with
  | InDecodeError w _ | InAcquireError w _ => is_error_write w = true
  | _ => True
  end.

(** How a run can end other than by [RunWith] returning nil: [RunWith]
    returns the error of the error stream, or a goroutine panics with the
    error of one of the streams or, once the context is done, in [Release]. *)
Definition ends_ok (s : State) : Prop :=
  (forall e, main s = Returned (Some e) -> broken (errOutput s) = Some e) /\
  (forall e, crashed s = Some e ->
     broken (output s) = Some e \/ broken (errOutput s) = Some e \/
     (e = "semaphore: released more than held" /\ ctx_err s <> None)).

(** The record of a write is that of the given row and input, and it is a
    failure record exactly when the write is one of [writeError]. *)
Definition write_ok (row : Z) (input : Variables) (w : WritePC) : Prop :=
  Row (record_of w) = row /\ Input (record_of w) = input /\
  if is_error_write w
  then Error (record_of w) <> None /\ is_map (Output (record_of w)) = false
  else Error (record_of w) = None /\ is_map (Output (record_of w)) = true.

(** The [i]-th goroutine started is that of row [i + 1] and carries the
    variables of the [i]-th record of the input. *)
Definition worker_ok (input0 : list Decoded) (i : nat) (g : Worker) : Prop :=
  g_row g = Z.of_nat i + 1 /\
  (exists d, input0 !! i = Some d /\ g_variables g = vars_of d) /\
  match g_pc g with
  | InWrite w => write_ok (g_row g) (g_variables g) w
  | _ => True
  end.

(** Where the loop stands, [started] being the records whose goroutine is
    started and [current] the record it is at, if any. *)
Definition loop_ok (s : State) (started current : list Decoded) : Prop :=
  match main s with
  | AtDecode => current = [] /\ row s = Z.of_nat (length started)
  | AtAcquire variables =>
      row s = Z.of_nat (length started) + 1 /\
      exists d, current = [d] /\ vars_of d = variables
  | InDecodeError w variables | InAcquireError w variables =>
      row s = Z.of_nat (length started) + 1 /\
      (exists d, current = [d] /\ vars_of d = variables) /\
      is_error_write w = true /\ write_ok (row s) None w /\ Output (record_of w) = ANil
  | AtWait | Returned None =>
      current = [] /\ input s = [] /\ row s = Z.of_nat (length started) + 1
  | Returned (Some _) => True
  end.

(** The run follows the input [input0]: one goroutine for each record the
    loop is past, in the order of the input. *)
Definition tracked (input0 : list Decoded) (s : State) : Prop :=
  exists started current,
    input0 = started ++ current ++ input s /\
    length (workers s) = length started /\
    loop_ok s started current /\
    forall i g, workers s !! i = Some g -> worker_ok input0 i g.

(** The record is that of a row of the input. *)
Definition of_input (input0 : list Decoded) (r : result) (d : Decoded) : Prop :=
  1 <= Row r /\ input0 !! Z.to_nat (Row r - 1) = Some d.

(** A record of the output stream: no error, the decoded response (a map,
    nil for the body [null]), and as input the variables of its row (nil for
    the record [null]). *)
Definition response_record (input0 : list Decoded) (r : result) : Prop :=
  Error r = None /\ is_map (Output r) = true /\
  exists d, of_input input0 r d /\ Input r = vars_of d.

(** A record of the error stream: an error, no decoded response, and as
    input either the variables of its row (the call failed; they are nil for
    the record [null]) or, with no output, the nil map (the row was not
    read, or not admitted). *)
Definition failure_record (input0 : list Decoded) (r : result) : Prop :=
  Error r <> None /\ is_map (Output r) = false /\
  exists d, of_input input0 r d /\
    (Input r = vars_of d \/ (Input r = None /\ Output r = ANil)).

(** The records written since the run began on streams [out] and [err]. *)
Definition new_output (out : Encoder) (s : State) : list result :=
  drop (length (written out)) (written (output s)).

Definition new_errOutput (err : Encoder) (s : State) : list result :=
  drop (length (written err)) (written (errOutput s)).

(** The goroutine may still write its record. *)
Definition to_write (g : Worker) : list Z :=
  match g_pc g with
  | InCall | InWrite _ => [g_row g]
  | _ => []
  end.

(** What has come onto the two streams since the run began: records of
    the two kinds, and on the output stream no more records of a row than
    goroutines of that row that are past their write. *)
Definition streams_ok (input0 : list Decoded) (out err : Encoder) (s : State) : Prop :=
  exists new_out new_err,
    written (output s) = written out ++ new_out /\
    written (errOutput s) = written err ++ new_err /\
    Forall (response_record input0) new_out /\
    Forall (failure_record input0) new_err /\
    forall x,
      (count_occ Z.eq_dec (map Row new_out) x +
       count_occ Z.eq_dec (flat_map to_write (workers s)) x <=
       count_occ Z.eq_dec (map g_row (workers s)) x)%nat.

(** The events that are steps of the program, the others being what
    happens around it: the context is cancelled, time passes, a stream
    breaks. *)
Definition is_program_event (ev : Event) : bool :=
  match ev with
  | EvMain | EvAcquireFails | EvCall _ _ _ | EvWorker _ => true
  | _ => false
  end.





(** What of the client a call may change is the cached token alone. *)
Definition same_configuration (c c' : Client) : Prop :=
  transport c' = transport c /\ query c' = query c /\ url c' = url c /\
  header c' = header c /\ oauth c' = oauth c.

(** At most one expiry timer is pending, and none while no token is cached. *)
Definition timers_ok (w : World) : Prop :=
  timers w = [] \/ exists d, timers w = [d] /\ token (client w) <> None.

Definition graphql_requests (l : list Request) : nat := length (List.filter is_graphql l).

Section WithLib.
Context `{GoLib}.

(** A request a run over [input0] with client [c] may send: the login of
    the configured OAuth exchange, or the configured query with the
    variables of a record of the input, to the configured URL. *)
Definition request_of_input (c : Client) (input0 : list Decoded) (r : Request) : Prop :=
  match r with
  | LoginRequest o => oauth c = Some o
  | GraphQLRequest u _ body =>
      u = url c /\ exists d, d ∈ input0 /\ marshal_request (query c) (vars_of d) = Ok body
  end.

(** What the run has sent since it began with the world [w0]. *)
Definition wire_ok (w0 : World) (input0 : list Decoded) (s : State) : Prop :=
  same_configuration (client w0) (client (world s)) /\
  exists new,
    wire (world s) = wire w0 ++ new /\
    Forall (request_of_input (client w0) input0) new /\
    (graphql_requests new <= list_sum (map called (workers s)))%nat.

End WithLib.

(** The statistics after a sequence of calls, [true] for [AddProcessed] and
    [false] for [AddError]. *)
Definition count_calls (calls : list bool) (s : Stats) : Stats :=
  foldl (fun s c => if c : bool then AddProcessed s else AddError s) s calls.

End Invariants.

(** ** Further concrete cases, for the examples *)

Module Scenario.
Import Stats Client Run.

(** A library whose MIME reader rejects what it is given. *)
Definition strict_lib : GoLib := {|
  canon := Sample.CanonicalMIMEHeaderKey;
  url_error := fun _ => None;
  marshal_request := fun q _ => Ok q;
  decode_login := fun _ => Failed "invalid character";
  decode_object := fun _ => Failed "invalid character";
  ReadMIMEHeader := fun _ => Failed "malformed MIME header line"
|}.

(** A file system where every file but [missing] can be opened and holds a
    query, every file can be created, and every reader yields one record. *)
Definition os : Startup.OS :=
  {| Startup.Clean := fun path => path;
     Startup.Open := fun path =>
       if decide (path = "missing") then Failed "open missing: no such file or directory"
       else Ok {| Startup.content := "query Q"; Startup.read_error := None |};
     Startup.Create := fun _ => Ok Sample.no_output;
     Startup.Stdin := {| Startup.content := "{}"; Startup.read_error := None |};
     Startup.Stdout := Sample.no_output;
     Startup.Stderr := Sample.no_output;
     Startup.NewDecoder := fun _ => [Decoded_ok (Some [])] |}.

Definition no_oauth : OAuthConfig :=
  {| oauth_URL := ""; ClientID := ""; ClientSecret := ""; Scope := "" |}.

(** Only the query is named. *)
Definition standard_config : Config :=
  {| URL := "https://api"; Connections := 1; Verbose := false; Headers := [];
     BearerToken := ""; OAuth := no_oauth;
     QueryFile := "query.graphql"; InputFile := ""; OutputFile := ""; ErrorFile := "" |}.

(** The query file does not exist. *)
Definition missing_query_config : Config :=
  {| URL := "https://api"; Connections := 1; Verbose := false; Headers := [];
     BearerToken := ""; OAuth := no_oauth;
     QueryFile := "missing"; InputFile := "in.jsonl"; OutputFile := "out.jsonl";
     ErrorFile := "err.jsonl" |}.

(** A header line without a colon, and both outputs named. *)
Definition bad_header_config : Config :=
  {| URL := "https://api"; Connections := 1; Verbose := false; Headers := ["no colon"];
     BearerToken := ""; OAuth := no_oauth;
     QueryFile := "query.graphql"; InputFile := "in.jsonl"; OutputFile := "out.jsonl";
     ErrorFile := "err.jsonl" |}.

(** A bearer token together with OAuth credentials. *)
Definition token_config : Config :=
  {| URL := "https://api"; Connections := 1; Verbose := false; Headers := [];
     BearerToken := "abc"; OAuth := Sample.credentials;
     QueryFile := "query.graphql"; InputFile := ""; OutputFile := ""; ErrorFile := "" |}.

Definition token_client : Client :=
  {| transport := {| MaxConnsPerHost := 1; MaxIdleConns := 1; MaxIdleConnsPerHost := 1 |};
     query := "query Q"; url := "https://api"; header := [];
     oauth := Some Sample.credentials; token := Some "abc" |}.

(** One record, one connection, the call of row 1 made. *)
Definition one_call : list Event :=
  [EvMain; EvMain; EvCall 0 (Response 200 "hour") (Response 200 "{}")].

Definition token_run : State :=
  RunWith (Sample.a_world token_client) [Decoded_ok (Some [])] Sample.no_output Sample.no_output
    SilentStats 1.

Definition oauth_run : State :=
  RunWith Sample.oauth_world [Decoded_ok (Some [])] Sample.no_output Sample.no_output SilentStats 1.

(** The error stream breaks before the failure record of a malformed row
    is written. *)
Definition broken_schedule : list Event :=
  [EvBreakErrOutput "disk full"; EvMain; EvMain; EvMain; EvMain].

(** Three records and one connection: the context is cancelled while the
    loop waits in [Acquire] for row 2; rows 2 and 3 are recorded as failed
    and started all the same; their goroutines run to their [Release], the
    call of row 1 still under way. *)
Definition cancelled_run : State :=
  Sample.a_run [Decoded_ok (Sample.x_is "1"); Decoded_ok (Sample.x_is "2");
                Decoded_ok (Sample.x_is "3")] 1.

Definition cancelled_schedule : list Event :=
  [EvMain; EvMain; EvMain; EvCancel "context canceled";
   EvAcquireFails; EvMain; EvMain; EvMain;
   EvMain; EvAcquireFails; EvMain; EvMain; EvMain;
   EvCall 1 (TransportError "") (Response 200 "four");
   EvWorker 1; EvWorker 1; EvWorker 1;
   EvCall 2 (TransportError "") (Response 200 "six");
   EvWorker 2; EvWorker 2; EvWorker 2].

(** A record [null] between two objects, against a server that answers
    [null] to it: the run to its end, one row after the other. *)
Definition null_input : list Decoded :=
  [Decoded_ok (Sample.x_is "1"); Decoded_ok None; Decoded_ok (Sample.x_is "3")].

Definition null_run : State := Sample.a_run null_input 1.

Definition null_schedule : list Event :=
  [EvMain; EvMain; EvCall 0 (TransportError "") (Response 200 "two");
   EvWorker 0; EvWorker 0; EvWorker 0; EvWorker 0;
   EvMain; EvMain; EvCall 1 (TransportError "") (Response 200 "null");
   EvWorker 1; EvWorker 1; EvWorker 1; EvWorker 1;
   EvMain; EvMain; EvCall 2 (TransportError "") (Response 500 "oops");
   EvWorker 2; EvWorker 2; EvWorker 2; EvWorker 2; EvWorker 2;
   EvMain; EvMain].




(** The state [Startup.Run] hands to [RunWith] for [standard_config]. *)
Definition standard_start : State :=
  RunWith (Sample.a_world
             {| transport := {| MaxConnsPerHost := 1; MaxIdleConns := 1;
                                MaxIdleConnsPerHost := 1 |};
                query := "query Q"; url := "https://api"; header := [];
                oauth := None; token := None |})
    [Decoded_ok (Some [])] Sample.no_output Sample.no_output SilentStats 1.

End Scenario.

(** ** Case analysis on one step

    [step_cases Hstep] splits [Hstep : step e s = Some s'] into every way the
    step can be taken, with [s'] written out, and records that [s] has
    neither crashed nor returned. *)

Ltac step_cases Hstep :=
  let Hh := fresh "Hhalt" in
  let Hcr := fresh "Hcrashed" in
  let Hm := fresh "Hmain" in
  unfold Run.step in Hstep;
  lazymatch type of Hstep with
  | (if Run.halted ?s then _ else _) = _ =>
      destruct (Run.halted s) eqn:Hh; [discriminate Hstep|];
      assert (Run.crashed s = None /\ forall err, Run.main s <> Run.Returned err)
        as [Hcr Hm]
        by (unfold Run.halted in Hh; destruct (Run.main s), (Run.crashed s);
            try discriminate Hh; (split; [reflexivity|intros ?; discriminate]))
  end;
  lazymatch type of Hstep with
  | match ?e with _ => _ end = _ => destruct e
  end;
  unfold Run.main_step, Run.acquire_fails, Run.call_step, Run.worker_step,
    Run.write_step, Run.Encode in Hstep;
  repeat (match type of Hstep with
          | context [match ?x with _ => _ end] =>
              lazymatch x with
              | context [match _ with _ => _ end] => fail
              | _ => destruct x eqn:?
              end
          end; try discriminate);
  try discriminate;
  first [injection Hstep as <- | idtac].


(** * Properties *)

Import Stats Client Run Observe.

(** ** The client *)

Section HeaderFacts.
Context `{GoLib}.

Lemma lookup_Header_Add k v (h : Header) K :
  Header_Add k v h !! K =
  if decide (canon k = K) then Some (default [] (h !! K) ++ [v]) else h !! K.
Proof.
  unfold Header_Add. destruct (decide (canon k = K)) as [->|Hne].
  - by rewrite lookup_insert_eq.
  - by rewrite lookup_insert_ne.
Qed.

Lemma lookup_Header_Set k v (h : Header) K :
  Header_Set k v h !! K = if decide (canon k = K) then Some [v] else h !! K.
Proof.
  unfold Header_Set. destruct (decide (canon k = K)) as [->|Hne].
  - by rewrite lookup_insert_eq.
  - by rewrite lookup_insert_ne.
Qed.

Lemma lookup_add_values hk hv : forall (h : Header) K,
  add_values hk hv h !! K =
  if decide (canon hk = K) then
    match hv with [] => h !! K | _ :: _ => Some (default [] (h !! K) ++ hv) end
  else h !! K.
Proof.
  unfold add_values. induction hv as [|v hv IH]; intros h K; simpl.
  - by destruct (decide _).
  - rewrite IH. destruct (decide (canon hk = K)) as [Heq|Hne].
    + rewrite lookup_Header_Add, decide_True by done. simpl.
      destruct hv; [done|]. by rewrite <- app_assoc.
    + by rewrite lookup_Header_Add, decide_False.
Qed.

Lemma lookup_add_headers hs : forall (h : Header) K,
  h !! K <> Some [] ->
  add_headers hs h !! K =
  match configured K hs with
  | [] => h !! K
  | _ :: _ => Some (default [] (h !! K) ++ configured K hs)
  end.
Proof.
  unfold add_headers, configured.
  induction hs as [|[hk hv] hs IH]; intros h K Hwf; simpl; [done|].
  rewrite IH.
  - rewrite lookup_add_values. rewrite filter_cons. simpl.
    destruct (decide (canon hk = K)) as [Heq|Hne]; simpl; [|done].
    destruct hv as [|v hv]; simpl; [done|].
    destruct (concat _) eqn:E; simpl.
    + by rewrite app_nil_r.
    + by rewrite <- app_assoc.
  - rewrite lookup_add_values. destruct (decide _); [|done].
    destruct hv; [done|]. intros [=Hx]. by destruct (default [] (h !! K)).
Qed.

Lemma lookup_add_headers_empty hs K :
  add_headers hs (∅ : Header) !! K = attached K hs.
Proof.
  rewrite lookup_add_headers by (by rewrite lookup_empty).
  unfold attached. rewrite lookup_empty. by destruct (configured K hs).
Qed.

End HeaderFacts.

Section DoFacts.
Context `{GoLib}.

Lemma filter_none {A} (P : A -> Prop) `{forall x, Decision (P x)} (l : list A) :
  Forall (fun x => ~ P x) l -> filter P l = [].
Proof.
  induction 1 as [|x l Hx _ IH]; [done|].
  by rewrite filter_cons, decide_False.
Qed.

Lemma attached_entry (hs : list (string * list string)) k vs :
  NoDup (map (fun kv => canon kv.1) hs) ->
  In (k, vs) hs -> vs <> [] -> attached (canon k) hs = Some vs.
Proof.
  unfold attached, configured.
  induction hs as [|[k' vs'] hs IH]; simpl; intros Hnd Hin Hvs; [done|].
  apply NoDup_cons in Hnd as [Hnotin Hnd].
  rewrite filter_cons. simpl. destruct Hin as [[= -> ->]|Hin].
  - rewrite decide_True by done. simpl.
    replace (filter _ hs) with (@nil (string * list string)).
    + simpl. rewrite app_nil_r. by destruct vs.
    + symmetry. apply filter_none, Forall_forall. intros [k2 v2] Hin2 Heq.
      apply Hnotin. simpl in Heq. rewrite <- Heq.
      apply list_elem_of_In, in_map_iff. exists (k2, v2). split; [done|].
      by apply list_elem_of_In.
  - rewrite decide_False.
    + by apply IH.
    + intros Heq. apply Hnotin. simpl. rewrite Heq.
      apply list_elem_of_In, in_map_iff. by exists (k, vs).
Qed.

Lemma header_login o w reply : header (client (login o w reply).1) = header (client w).
Proof.
  unfold login. destruct (url_error _); [done|]. destruct reply; [done|].
  destruct (decide _); [|done]. destruct (decode_login _) as [[a n]|]; [|done].
  by destruct (decide _).
Qed.

Lemma header_ensureValidToken w reply :
  header (client (ensureValidToken w reply).1) = header (client w).
Proof.
  unfold ensureValidToken. destruct (oauth _).
  - destruct (decide _); [|done]. destruct (token _); [done|].
    pose proof (header_login o w reply) as Hl.
    destruct (login o w reply) as [w1 [t|err]]; simpl in *; done.
  - by destruct (token _).
Qed.

Lemma wire_login o w reply :
  exists new, wire (login o w reply).1 = wire w ++ new /\
              forall u hdr b, ~ In (GraphQLRequest u hdr b) new.
Proof.
  unfold login. destruct (url_error _).
  { exists []. rewrite app_nil_r. split; [done|]. by intros ? ? ? []. }
  exists [LoginRequest o]. split.
  - destruct reply; [reflexivity|]. destruct (decide _); [|reflexivity].
    destruct (decode_login _) as [[a n]|]; [|reflexivity].
    destruct (decide _); reflexivity.
  - intros u hdr b [Hx|[]]. discriminate.
Qed.

Lemma wire_ensureValidToken w reply :
  exists new, wire (ensureValidToken w reply).1 = wire w ++ new /\
              forall u hdr b, ~ In (GraphQLRequest u hdr b) new.
Proof.
  assert (Hnil : exists new, wire w = wire w ++ new /\
              forall u hdr b, ~ In (GraphQLRequest u hdr b) new).
  { exists []. rewrite app_nil_r. split; [done|]. by intros ? ? ? []. }
  unfold ensureValidToken. destruct (oauth _).
  - destruct (decide _); [|done]. destruct (token _); [done|].
    destruct (wire_login o w reply) as (new & Hw & Hn).
    destruct (login o w reply) as [w1 [t|err]]; simpl in *; by exists new.
  - by destruct (token _).
Qed.

Lemma request_header_Content_Type c t :
  canon "Content-Type" = "Content-Type" ->
  canon "Authorization" = "Authorization" ->
  request_header c t !! "Content-Type" = Some ["application/json"].
Proof.
  intros Hct Ha. unfold request_header. destruct (decide (t = "")).
  - by rewrite lookup_Header_Set, decide_True.
  - rewrite lookup_Header_Set, decide_False by (by rewrite Ha).
    by rewrite lookup_Header_Set, decide_True.
Qed.

Lemma request_header_Authorization c t :
  canon "Authorization" = "Authorization" ->
  t <> "" -> request_header c t !! "Authorization" = Some ["Bearer " +:+ t].
Proof.
  intros Ha Ht. unfold request_header. rewrite decide_False by done.
  by rewrite lookup_Header_Set, decide_True.
Qed.

Lemma request_header_other c t K :
  canon "Content-Type" = "Content-Type" ->
  canon "Authorization" = "Authorization" ->
  K <> "Content-Type" -> (K <> "Authorization" \/ t = "") ->
  request_header c t !! K = attached K (header c).
Proof.
  intros Hct Ha HK HK'. unfold request_header. destruct (decide (t = "")).
  - rewrite lookup_Header_Set, decide_False by (by rewrite Hct).
    apply lookup_add_headers_empty.
  - destruct HK' as [HK'|]; [|done].
    rewrite lookup_Header_Set, decide_False by (by rewrite Ha).
    rewrite lookup_Header_Set, decide_False by (by rewrite Hct).
    apply lookup_add_headers_empty.
Qed.

(** What [Do] puts on the wire: the login exchange if one was needed, then
    at most one GraphQL request, whose header is [request_header] at the
    token [ensureValidToken] returned. *)
Lemma wire_Do w variables login_reply reply :
  exists new, wire (Do w variables login_reply reply).1 = wire w ++ new /\
    forall u hdr b, In (GraphQLRequest u hdr b) new ->
      exists t, (ensureValidToken w login_reply).2 = Ok t /\
                hdr = request_header (client (ensureValidToken w login_reply).1) t.
Proof.
  unfold Do.
  destruct (wire_ensureValidToken w login_reply) as (new & Hw & Hn).
  destruct (ensureValidToken w login_reply) as [w1 [t|err]]; simpl in *.
  2:{ exists new. split; [done|]. intros u hdr b Hin. by apply Hn in Hin. }
  destruct (marshal_request _ _).
  2:{ exists new. split; [done|]. intros u hdr b Hin. by apply Hn in Hin. }
  destruct (url_error _).
  { exists new. split; [done|]. intros u hdr b Hin. by apply Hn in Hin. }
  exists (new ++ [GraphQLRequest (url (client w1)) (request_header (client w1) t) a]).
  split.
  - destruct reply; [|destruct (decide _)]; simpl; by rewrite Hw, app_assoc.
  - intros u hdr b Hin. apply in_app_or in Hin as [Hin|[Hin|[]]].
    + by apply Hn in Hin.
    + injection Hin as <- <- <-. by exists t.
Qed.

End DoFacts.

Section ClientClaims.
Context `{GoLib}.

(** Claim C9, as amended. Every GraphQL request [Do] sends carries
    [Content-Type: application/json], whatever the configured headers say;
    when [ensureValidToken] returned a non-empty token it carries
    [Authorization: Bearer <token>], whatever the configured headers say;
    and every other configured header (a configured Authorization too when
    the token is empty) reaches the request under its canonical key with its
    configured values unchanged. The configured keys are taken to be
    distinct after canonicalisation, as [ReadMIMEHeader] delivers them. *)
Theorem Do_request_header w variables login_reply reply :
  canon "Content-Type" = "Content-Type" ->
  canon "Authorization" = "Authorization" ->
  NoDup (map (fun kv => canon kv.1) (header (client w))) ->
  exists new, wire (Do w variables login_reply reply).1 = wire w ++ new /\
    forall u hdr b, In (GraphQLRequest u hdr b) new ->
      hdr !! "Content-Type" = Some ["application/json"] /\
      (forall t, (ensureValidToken w login_reply).2 = Ok t -> t <> "" ->
         hdr !! "Authorization" = Some ["Bearer " +:+ t]) /\
      (forall k vs, In (k, vs) (header (client w)) -> vs <> [] ->
         canon k <> "Content-Type" ->
         (canon k <> "Authorization" \/ (ensureValidToken w login_reply).2 = Ok "") ->
         hdr !! canon k = Some vs).
Proof.
  intros Hct Ha Hnd.
  destruct (wire_Do w variables login_reply reply) as (new & Hw & Hreq).
  exists new. split; [done|]. intros u hdr b Hin.
  destruct (Hreq u hdr b Hin) as (t & Ht & ->).
  split; [by apply request_header_Content_Type|]. split.
  - intros t' Ht' Hne. rewrite Ht in Ht'. injection Ht' as <-.
    by apply request_header_Authorization.
  - intros k vs Hk Hvs Hkct Hka.
    rewrite request_header_other; try done.
    + rewrite header_ensureValidToken. by apply attached_entry.
    + destruct Hka as [Hka|Hka]; [by left|right]. rewrite Ht in Hka. by injection Hka.
Qed.

(** Claim C7. When [Do] gets as far as the remote call, [processRequest]
    succeeds, with the decoded body, exactly when the reply has a status of
    200 to 299 and its body decodes; on any other status it fails with
    "invalid status code" and the raw body, as a string; on a transport
    failure it fails with the transport's error and no response bytes (the
    empty string); on a 2xx body that does not decode it fails with the
    decoder's error and a nil response. When no call is made (no token, no
    request) it fails with no response bytes either. *)
Theorem processRequest_outcome w variables login_reply reply :
  (call_made w variables login_reply = false ->
   exists e, (processRequest w variables login_reply reply).2 = (AString "", Some e)) /\
  (call_made w variables login_reply = true ->
   ((processRequest w variables login_reply reply).2.2 = None <->
    exists st body m, reply = Response st body /\ 200 <= st < 300 /\
                      decode_object body = Ok m) /\
   (forall st body m, reply = Response st body -> 200 <= st < 300 ->
      decode_object body = Ok m ->
      (processRequest w variables login_reply reply).2 = (AMap m, None)) /\
   (forall st body, reply = Response st body -> ~ 200 <= st < 300 ->
      (processRequest w variables login_reply reply).2 =
      (AString body, Some ("invalid status code " +:+ pretty st))) /\
   (forall e, reply = TransportError e ->
      (processRequest w variables login_reply reply).2 = (AString "", Some e)) /\
   (forall st body e, reply = Response st body -> 200 <= st < 300 ->
      decode_object body = Failed e ->
      (processRequest w variables login_reply reply).2 = (ANil, Some e))).
Proof.
  unfold call_made, processRequest, Do.
  destruct (ensureValidToken w login_reply) as [w1 [t|e0]]; simpl.
  2:{ split; [by eexists|done]. }
  destruct (marshal_request _ _) as [b|e0]; simpl.
  2:{ split; [by eexists|done]. }
  destruct (url_error _) as [e0|]; simpl.
  { split; [by eexists|done]. }
  split; [done|]. intros _.
  destruct reply as [e|st body]; simpl.
  - split; [|repeat split; try done].
    + split; [done|]. by intros (? & ? & ? & ? & _).
    + by intros e' [= ->].
  - destruct (decide (st < 200 \/ 300 <= st)) as [Hbad|Hok]; simpl.
    + split; [|repeat split; try done].
      * split; [done|]. intros (? & ? & ? & [= <- <-] & ? & _). lia.
      * intros ? ? ? [= <- <-] ?. lia.
      * by intros ? ? [= <- <-] _.
      * intros ? ? ? [= <- <-] ?. lia.
    + assert (200 <= st < 300) by lia.
      destruct (decode_object body) as [m|e] eqn:Hd; simpl.
      * split; [|repeat split; try done].
        -- split; [|done]. intros _. by exists st, body, m.
        -- intros ? ? ? [= <- <-] _. rewrite Hd. by intros [= <-].
        -- by intros ? ? [= <- <-] ?.
        -- intros ? ? ? [= <- <-] _. by rewrite Hd.
      * split; [|repeat split; try done].
        -- split; [done|]. intros (? & ? & ? & [= <- <-] & _ & Hm). by rewrite Hd in Hm.
        -- intros ? ? ? [= <- <-] _. by rewrite Hd.
        -- by intros ? ? [= <- <-] ?.
        -- intros ? ? ? [= <- <-] _. rewrite Hd. by intros [= <-].
Qed.

(** Claim C6, as amended. [login] fails exactly when the request cannot be
    built, the exchange fails in transport, the status is not 200 (a 201 or
    204 included), the body does not decode, or the decoded access token is
    empty; and every 200 response whose body decodes to a non-empty access
    token and a lifetime makes it return that token. *)
Theorem login_fails_exactly_when o w reply :
  ((exists e, (login o w reply).2 = Failed e) <->
   (url_error (oauth_URL o) <> None \/
    (exists e, reply = TransportError e) \/
    (exists st body, reply = Response st body /\
       (st <> 200 \/ (exists e, decode_login body = Failed e) \/
        (exists n, decode_login body = Ok ("", n)))))) /\
  (forall body AccessToken ExpiresIn,
     url_error (oauth_URL o) = None -> reply = Response 200 body ->
     decode_login body = Ok (AccessToken, ExpiresIn) -> AccessToken <> "" ->
     (login o w reply).2 = Ok AccessToken).
Proof.
  unfold login. destruct (url_error _) as [e0|]; simpl.
  { split; [|done]. split; [by left|by eexists]. }
  destruct reply as [e|st body]; simpl.
  { split; [|done]. split; [|by eexists]. intros _. right. left. by eexists. }
  destruct (decide (st = 200)) as [->|Hst]; simpl.
  2:{ split.
      - split; [|by eexists]. intros _. right. right. exists st, body. by split; [|left].
      - by intros ? ? ? _ [= -> ->]. }
  destruct (decode_login body) as [[a n]|e] eqn:Hd; simpl.
  2:{ split.
      - split; [|by eexists]. intros _. right. right. exists 200, body.
        split; [done|]. right. left. by eexists.
      - intros ? ? ? _ [= <-]. by rewrite Hd. }
  destruct (decide (a = "")) as [->|Ha]; simpl.
  - split.
    + split; [|by eexists]. intros _. right. right. exists 200, body.
      split; [done|]. right. right. by eexists.
    + intros ? ? ? _ [= <-]. rewrite Hd. by intros [= <- <-].
  - split.
    + split; [by intros [? ?]|].
      intros [?|[[? ?]|(st' & body' & [= <- <-] & [?|[[? Hx]|[? Hx]]])]]; try done;
        rewrite Hd in Hx; by simplify_eq.
    + intros ? ? ? _ [= <-]. rewrite Hd. by intros [= <- <-].
Qed.

End ClientClaims.

Section TokenClaims.
Context `{GoLib}.

Lemma expiresIn90p_small L : 0 <= L < 2 ^ 33 -> expiresIn90p L = floor90 L * Second.
Proof.
  intros HL. unfold expiresIn90p, wrap64, floor90, Second.
  assert (0 <= 9 * L / 10 < 2 ^ 33) by (split; [apply Z.div_pos|apply Z.div_lt_upper_bound]; lia).
  rewrite Z.mod_small; lia.
Qed.

Lemma fire_timers_none w : Forall (fun d => ~ d <= clock w) (timers w) -> fire_timers w = w.
Proof.
  intros Hf. unfold fire_timers.
  by rewrite (filter_none (fun d => d <= clock w) (timers w) Hf).
Qed.

(** Claim C5, as amended. In the client credentials flow, a login that is
    answered with a token and a lifetime of [L] seconds (0 <= L < 2^33)
    caches the token and arms one timer at [floor (0.9 * L)] whole seconds.
    Until that moment a call returns the cached token and sends nothing;
    from that moment on the cache is empty and the next call performs
    exactly one login exchange. So a call at [0.95 * L] logs in again once
    whenever L >= 1, and a call at [0.5 * L] reuses the token whenever
    L >= 3. *)
Theorem token_expiry o w body tok L :
  oauth (client w) = Some o -> token (client w) = None -> timers w = [] ->
  url_error (oauth_URL o) = None ->
  decode_login body = Ok (tok, L) -> tok <> "" -> 0 <= L < 2 ^ 33 ->
  (ensureValidToken w (Response 200 body)).2 = Ok tok /\
  wire (ensureValidToken w (Response 200 body)).1 = wire w ++ [LoginRequest o] /\
  timers (ensureValidToken w (Response 200 body)).1 = [clock w + floor90 L * Second] /\
  (forall dt reply, 0 <= dt < floor90 L * Second ->
     ensureValidToken (advance dt (ensureValidToken w (Response 200 body)).1) reply =
     (advance dt (ensureValidToken w (Response 200 body)).1, Ok tok)) /\
  (forall dt reply, floor90 L * Second <= dt ->
     wire (ensureValidToken (advance dt (ensureValidToken w (Response 200 body)).1) reply).1 =
     wire (ensureValidToken w (Response 200 body)).1 ++ [LoginRequest o]) /\
  (1 <= L -> forall reply,
     wire (ensureValidToken
             (advance (L * Second * 95 / 100) (ensureValidToken w (Response 200 body)).1)
             reply).1 =
     wire (ensureValidToken w (Response 200 body)).1 ++ [LoginRequest o]) /\
  (3 <= L -> forall reply,
     ensureValidToken
       (advance (L * Second / 2) (ensureValidToken w (Response 200 body)).1) reply =
     (advance (L * Second / 2) (ensureValidToken w (Response 200 body)).1, Ok tok)).
Proof.
  intros Ho Ht Htm Hu Hd Htok HL.
  assert (Hw1 : ensureValidToken w (Response 200 body) =
    (set_token (Some tok) (AfterFunc (floor90 L * Second) (send (LoginRequest o) w)), Ok tok)).
  { unfold ensureValidToken, login. rewrite Ho, Ht, Hu. simpl.
    rewrite Hd. rewrite decide_False by done. by rewrite expiresIn90p_small. }
  rewrite Hw1. simpl. rewrite Htm. simpl.
  set (w1 := set_token _ _).
  assert (Hreuse : forall dt reply, 0 <= dt < floor90 L * Second ->
     ensureValidToken (advance dt w1) reply = (advance dt w1, Ok tok)).
  { intros dt reply Hdt. unfold advance. rewrite fire_timers_none.
    - unfold ensureValidToken. simpl. rewrite Ho. simpl. by rewrite decide_False.
    - simpl. rewrite Htm. simpl. constructor; [lia|constructor]. }
  assert (Hrenew : forall dt reply, floor90 L * Second <= dt ->
     wire (ensureValidToken (advance dt w1) reply).1 = wire w ++ [LoginRequest o] ++ [LoginRequest o]).
  { intros dt reply Hdt. unfold advance, fire_timers. simpl. rewrite Htm. simpl.
    rewrite filter_cons, decide_True by lia. simpl.
    unfold ensureValidToken, login. simpl. rewrite Ho. simpl. rewrite Hu.
    destruct reply as [e1|st b]; simpl; [by rewrite <- app_assoc|].
    destruct (decide (st = 200)); simpl; [|by rewrite <- app_assoc].
    destruct (decode_login b) as [[a n]|e2]; simpl; [|by rewrite <- app_assoc].
    destruct (decide (a = "")); simpl; by rewrite <- app_assoc. }
  repeat split; try done.
  - intros dt reply Hdt. rewrite Hrenew by done. by rewrite <- app_assoc.
  - intros HL1 reply. rewrite Hrenew; [by rewrite <- app_assoc|].
    unfold floor90, Second. Z.div_mod_to_equations. lia.
  - intros HL3 reply. apply Hreuse. unfold floor90, Second. Z.div_mod_to_equations. lia.
Qed.

End TokenClaims.

(** *** Examples for the client *)

(** Claim C9, refuted as stated: with a static token, the configured
    Authorization header does not reach the request with its value. *)
Lemma Do_overrides_configured_Authorization :
  exists hdr,
    wire (Do (H:=Sample.lib) Sample.bearer_world (Some []) (TransportError "") (Response 200 "{}")).1
    = [GraphQLRequest "https://api" hdr "query Q"] /\
    In ("Authorization", ["value"]) (header (client Sample.bearer_world)) /\
    hdr !! "Authorization" = Some ["Bearer abc"] /\
    hdr !! "Authorization" <> Some ["value"].
Proof.
  exists (request_header (H:=Sample.lib) (client Sample.bearer_world) "abc").
  split; [reflexivity|]. split; [by left|].
  assert (Hl : request_header (H:=Sample.lib) (client Sample.bearer_world) "abc"
               !! "Authorization" = Some ["Bearer abc"]) by (vm_compute; reflexivity).
  split; [exact Hl|]. rewrite Hl. discriminate.
Qed.

(** The header theorem at a client with two custom headers. *)
Lemma Do_request_header_witness :
  canon (GoLib:=Sample.lib) "Content-Type" = "Content-Type" /\
  canon (GoLib:=Sample.lib) "Authorization" = "Authorization" /\
  NoDup (map (fun kv => canon (GoLib:=Sample.lib) kv.1) (header (client Sample.plain_world))) /\
  exists new,
    wire (Do (H:=Sample.lib) Sample.plain_world (Some []) (TransportError "") (Response 200 "{}")).1
    = wire Sample.plain_world ++ new /\
    forall u hdr b, In (GraphQLRequest u hdr b) new ->
      hdr !! "Content-Type" = Some ["application/json"] /\
      (forall t, (ensureValidToken (H:=Sample.lib) Sample.plain_world (TransportError "")).2 = Ok t ->
         t <> "" -> hdr !! "Authorization" = Some ["Bearer " +:+ t]) /\
      (forall k vs, In (k, vs) (header (client Sample.plain_world)) -> vs <> [] ->
         canon (GoLib:=Sample.lib) k <> "Content-Type" ->
         (canon (GoLib:=Sample.lib) k <> "Authorization" \/
          (ensureValidToken (H:=Sample.lib) Sample.plain_world (TransportError "")).2 = Ok "") ->
         hdr !! canon (GoLib:=Sample.lib) k = Some vs).
Proof.
  assert (Hnd : NoDup (map (fun kv => canon (GoLib:=Sample.lib) kv.1)
                         (header (client Sample.plain_world)))).
  { apply (bool_decide_unpack _). vm_compute. exact I. }
  split; [reflexivity|]. split; [reflexivity|]. split; [exact Hnd|].
  apply (Do_request_header (H:=Sample.lib) Sample.plain_world (Some [])
           (TransportError "") (Response 200 "{}")); [reflexivity|reflexivity|exact Hnd].
Defined.

(** The outcome theorem at a 200 and at a 500 reply. *)
Lemma processRequest_outcome_witness :
  call_made (H:=Sample.lib) Sample.plain_world (Some []) (TransportError "") = true /\
  (processRequest (H:=Sample.lib) Sample.plain_world (Some []) (TransportError "")
     (Response 200 "two")).2
  = (AMap (Sample.doubled "2"), None) /\
  (processRequest (H:=Sample.lib) Sample.plain_world (Some []) (TransportError "")
     (Response 500 "oops")).2
  = (AString "oops", Some "invalid status code 500").
Proof.
  split; [reflexivity|]. split.
  - apply (proj1 (proj2 (proj2 (processRequest_outcome (H:=Sample.lib) Sample.plain_world (Some [])
             (TransportError "") (Response 200 "two")) eq_refl)) 200 "two");
      [reflexivity|lia|reflexivity].
  - apply (proj1 (proj2 (proj2 (proj2 (processRequest_outcome (H:=Sample.lib) Sample.plain_world (Some [])
             (TransportError "") (Response 500 "oops")) eq_refl))) 500 "oops");
      [reflexivity|lia].
Defined.

(** Claim C6, refuted as stated: a 201 response with a token and a
    lifetime is a failed login. *)
Lemma login_rejects_201 :
  decode_login (GoLib:=Sample.lib) "hour" = Ok ("tok", 3600) /\
  (login (H:=Sample.lib) Sample.credentials Sample.oauth_world (Response 201 "hour")).2
  = Failed "invalid status code 201 during login".
Proof. split; reflexivity. Qed.

(** The login theorem at a 200 reply with a token. *)
Lemma login_fails_exactly_when_witness :
  url_error (GoLib:=Sample.lib) (oauth_URL Sample.credentials) = None /\
  decode_login (GoLib:=Sample.lib) "hour" = Ok ("tok", 3600) /\
  (login (H:=Sample.lib) Sample.credentials Sample.oauth_world (Response 200 "hour")).2 = Ok "tok".
Proof.
  split; [reflexivity|]. split; [reflexivity|].
  apply (proj2 (login_fails_exactly_when (H:=Sample.lib) Sample.credentials Sample.oauth_world
                  (Response 200 "hour")) "hour" "tok" 3600);
    [reflexivity|reflexivity|reflexivity|discriminate].
Defined.

(** Claim C5, refuted as stated: with a lifetime of one second the timer is
    armed at zero seconds, and a call half a second after the login logs in
    again. *)
Lemma one_second_token_not_reused :
  decode_login (GoLib:=Sample.lib) "second" = Ok ("tok", 1) /\
  (ensureValidToken (H:=Sample.lib) Sample.oauth_world (Response 200 "second")).2 = Ok "tok" /\
  wire (ensureValidToken (H:=Sample.lib)
          (advance (1 * Second / 2)
             (ensureValidToken (H:=Sample.lib) Sample.oauth_world (Response 200 "second")).1)
          (Response 200 "second")).1
  = [LoginRequest Sample.credentials; LoginRequest Sample.credentials].
Proof. split; [reflexivity|]. split; reflexivity. Qed.

(** The expiry theorem at a lifetime of one hour. *)
Lemma token_expiry_witness :
  wire (ensureValidToken (H:=Sample.lib)
          (advance (3600 * Second * 95 / 100)
             (ensureValidToken (H:=Sample.lib) Sample.oauth_world (Response 200 "hour")).1)
          (TransportError "down")).1
  = wire (ensureValidToken (H:=Sample.lib) Sample.oauth_world (Response 200 "hour")).1
    ++ [LoginRequest Sample.credentials] /\
  ensureValidToken (H:=Sample.lib)
    (advance (3600 * Second / 2)
       (ensureValidToken (H:=Sample.lib) Sample.oauth_world (Response 200 "hour")).1)
    (TransportError "down")
  = (advance (3600 * Second / 2)
       (ensureValidToken (H:=Sample.lib) Sample.oauth_world (Response 200 "hour")).1, Ok "tok").
Proof.
  pose proof (token_expiry (H:=Sample.lib) Sample.credentials Sample.oauth_world "hour" "tok" 3600
                eq_refl eq_refl eq_refl eq_refl eq_refl) as Hx.
  destruct Hx as (_ & _ & _ & _ & _ & H95 & H50); [discriminate|lia|].
  split; [apply H95; lia|apply H50; lia].
Defined.


(** ** The run *)

(** *** The interleaving semantics *)

Section RunFacts.
Context `{GoLib}.

Lemma exec_app es1 es2 s :
  exec (es1 ++ es2) s = match exec es1 s with Some s1 => exec es2 s1 | None => None end.
Proof.
  revert s. induction es1 as [|e es1 IH]; intros s; simpl; [done|].
  destruct (step e s); [apply IH|done].
Qed.

(** A property kept by every step holds along every run. *)
Lemma exec_invariant (P : State -> Prop) :
  (forall e s s', P s -> step e s = Some s' -> P s') ->
  forall es s s', P s -> exec es s = Some s' -> P s'.
Proof.
  intros Hstep. induction es as [|e es IH]; intros s s' HP Hex; simpl in Hex.
  - by injection Hex as <-.
  - destruct (step e s) as [s1|] eqn:Hs; [|done]. eauto.
Qed.

Lemma reachable_invariant (P : State -> Prop) s0 :
  P s0 -> (forall e s s', P s -> step e s = Some s' -> P s') ->
  forall s, reachable s0 s -> P s.
Proof. intros H0 Hstep s [es Hes]. eapply exec_invariant; eauto. Qed.

Lemma reachable_step s0 s e s' : reachable s0 s -> step e s = Some s' -> reachable s0 s'.
Proof.
  intros [es Hes] Hs. exists (es ++ [e]). rewrite exec_app, Hes. simpl. by rewrite Hs.
Qed.

Lemma step_not_halted e s s' : step e s = Some s' -> halted s = false.
Proof. unfold step. by destruct (halted s). Qed.

Lemma not_halted s :
  halted s = false -> crashed s = None /\ forall err, main s <> Returned err.
Proof.
  unfold halted. destruct (main s), (crashed s); try done. Qed.

End RunFacts.

Section RunInvariants.
Context `{GoLib}.

(** [RunWith] returns nil only after [wg.Wait]: every goroutine is done. *)
Lemma step_drained e s s' :
  (main s = Returned None -> forallb finished (workers s) = true) ->
  step e s = Some s' ->
  (main s' = Returned None -> forallb finished (workers s') = true).
Proof.
  intros Hinv Hstep. step_cases Hstep; simpl; try done; try congruence;
    intros Hr; by apply Hmain in Hr.
Qed.

(** The decoder keeps its error. *)
Lemma dec_err_stays e s s' : step e s = Some s' -> dec_err s' = None -> dec_err s = None.
Proof. intros Hstep. step_cases Hstep; simpl; try done; congruence. Qed.

(** Once the decoder has kept an error the loop never sees [io.EOF]: it
    does not come to [wg.Wait], and [RunWith] does not return nil. *)
Lemma step_stuck e s s' :
  (dec_err s <> None -> main s <> AtWait /\ main s <> Returned None) ->
  step e s = Some s' ->
  (dec_err s' <> None -> main s' <> AtWait /\ main s' <> Returned None).
Proof.
  intros Hinv Hstep. step_cases Hstep; simpl; intros Hx; try done;
    try exact (Hinv Hx); try (split; congruence); by destruct (Hinv Hx).
Qed.

Lemma reachable_stuck w input out err st connections s :
  reachable (RunWith w input out err st connections) s ->
  dec_err s <> None -> main s <> AtWait /\ main s <> Returned None.
Proof.
  apply (reachable_invariant
           (fun s => dec_err s <> None -> main s <> AtWait /\ main s <> Returned None)).
  - done.
  - intros ev s1 s2. apply step_stuck.
Qed.

Lemma returned_nil_not_stuck w input out err st connections s :
  reachable (RunWith w input out err st connections) s ->
  main s = Returned None -> dec_err s = None.
Proof.
  intros Hreach Hret. destruct (dec_err s) as [e|] eqn:He; [|done].
  destruct (reachable_stuck _ _ _ _ _ _ _ Hreach) as [_ Hx]; [by rewrite He|done].
Qed.

End RunInvariants.

Section Counting.
Context `{GoLib}.

Lemma wrap64_succ z : wrap64 (wrap64 z + 1) = wrap64 (z + 1).
Proof.
  unfold wrap64. f_equal.
  replace ((z + 2 ^ 63) mod 2 ^ 64 - 2 ^ 63 + 1 + 2 ^ 63)
    with ((z + 2 ^ 63) mod 2 ^ 64 + 1) by lia.
  rewrite Zplus_mod_idemp_l. f_equal. lia.
Qed.

Lemma wrap64_small z : - 2 ^ 63 <= z < 2 ^ 63 -> wrap64 z = z.
Proof. intros Hz. unfold wrap64. rewrite Z.mod_small; lia. Qed.

Lemma sum_worker_insert (f : Worker -> nat) ws i g g' :
  ws !! i = Some g ->
  (list_sum (map f (<[i := g']> ws)) + f g = list_sum (map f ws) + f g')%nat.
Proof.
  intros Hi. rewrite insert_take_drop by (by eapply lookup_lt_Some).
  rewrite <- (take_drop_middle ws i g Hi) at 3.
  rewrite !map_app, !list_sum_app. simpl. lia.
Qed.

Lemma verbose_stays e s s' p0 e0 :
  step e s = Some s' -> stats s = VerboseStats p0 e0 -> exists p1 e1, stats s' = VerboseStats p1 e1.
Proof.
  intros Hstep Hst. step_cases Hstep; simpl; rewrite ?Hst; simpl; eauto.
Qed.

Lemma failed_not_halted s : halted s = false -> failed s = false.
Proof. unfold halted, failed. by destruct (main s), (crashed s). Qed.

Lemma step_counters ev s s' : counters_ok s -> step ev s = Some s' -> counters_ok s'.
Proof.
  intros Hinv Hstep. pose proof (failed_not_halted _ (step_not_halted _ _ _ Hstep)) as Hnf.
  specialize (Hinv Hnf). unfold counters_ok.
  step_cases Hstep; unfold failed; simpl; rewrite ?Hcrashed; try done;
    intros _ pN eN Hst;
    unfold processed_due, errors_due, in_progress, records in *;
    repeat match goal with
    | Hl : workers ?s !! ?i = Some ?g |- context [<[?i := ?g']> (workers ?s)] =>
        lazymatch goal with
        | _ : (list_sum (map (worker_count counted_processed) (<[i := g']> (workers s))) + _ = _)%nat |- _ => fail
        | _ =>
          pose proof (sum_worker_insert (worker_count counted_processed) _ _ _ g' Hl);
          pose proof (sum_worker_insert (worker_count counted_error) _ _ _ g' Hl)
        end
    end;
    unfold worker_count in *; simpl in *;
    repeat match goal with Hpc : g_pc _ = _ |- _ => rewrite Hpc in * end;
    repeat match goal with Hm : main _ = _ |- _ => rewrite Hm in * end;
    simpl in *;
    destruct (stats s) as [|p0 e0] eqn:Hs0; simpl in *; try discriminate;
    injection Hst as <- <-;
    destruct (Hinv p0 e0 eq_refl) as [-> ->];
    rewrite ?wrap64_succ, ?map_app, ?list_sum_app, ?length_app; simpl;
    split; f_equal; lia.
Qed.

End Counting.

Section CounterClaims.
Context `{GoLib}.

Lemma list_sum_le {A} (f g h : A -> nat) (l : list A) :
  (forall x, f x <= g x + h x)%nat ->
  (list_sum (map f l) <= list_sum (map g l) + list_sum (map h l))%nat.
Proof.
  intros Hle. induction l as [|x l IH]; simpl; [lia|]. specialize (Hle x). lia.
Qed.

Lemma in_progress_le (f g h : WritePC -> nat) s :
  (forall w, f w <= g w + h w)%nat ->
  (in_progress f s <= in_progress g s + in_progress h s)%nat.
Proof.
  intros Hle. unfold in_progress.
  assert (main_count f (main s) <= main_count g (main s) + main_count h (main s))%nat
    by (unfold main_count; destruct (main s); auto with lia).
  assert (list_sum (map (worker_count f) (workers s)) <=
          list_sum (map (worker_count g) (workers s)) +
          list_sum (map (worker_count h) (workers s)))%nat.
  { apply list_sum_le. intros g0. unfold worker_count. destruct (g_pc g0); auto with lia. }
  lia.
Qed.

Lemma finished_no_write (f : WritePC -> nat) ws :
  forallb finished ws = true -> list_sum (map (worker_count f) ws) = 0%nat.
Proof.
  induction ws as [|g ws IH]; simpl; [done|]. intros [Hg Hws]%andb_prop.
  rewrite IH by done. unfold finished in Hg. unfold worker_count.
  by destruct (g_pc g).
Qed.

(** Neither what [processed] stands for nor what [errors] stands for ever
    goes down, short of a failed write. *)
Lemma step_due_mono ev s s' :
  step ev s = Some s' -> failed s' = false ->
  processed_due s <= processed_due s' /\ errors_due s <= errors_due s'.
Proof.
  intros Hstep. unfold failed.
  step_cases Hstep; simpl; rewrite ?Hcrashed; try done; intros _;
    unfold processed_due, errors_due, in_progress, records in *;
    repeat match goal with
    | Hl : workers ?s !! ?i = Some ?g |- context [<[?i := ?g']> (workers ?s)] =>
        lazymatch goal with
        | _ : (list_sum (map (worker_count counted_processed) (<[i := g']> (workers s))) + _ = _)%nat |- _ => fail
        | _ =>
          pose proof (sum_worker_insert (worker_count counted_processed) _ _ _ g' Hl);
          pose proof (sum_worker_insert (worker_count counted_error) _ _ _ g' Hl)
        end
    end;
    unfold worker_count in *; simpl in *;
    repeat match goal with Hpc : g_pc _ = _ |- _ => rewrite Hpc in * end;
    repeat match goal with Hm : main _ = _ |- _ => rewrite Hm in * end;
    simpl in *;
    rewrite ?map_app, ?list_sum_app, ?length_app; simpl; lia.
Qed.

End CounterClaims.

Section CounterTheorem.
Context `{GoLib}.

Lemma in_progress_mono (f g : WritePC -> nat) s :
  (forall w, f w <= g w)%nat -> (in_progress f s <= in_progress g s)%nat.
Proof.
  intros Hle. pose proof (in_progress_le f g (fun _ => 0%nat) s) as Hx.
  assert (in_progress (fun _ => 0%nat) s = 0%nat) as Hz.
  { unfold in_progress.
    assert (main_count (fun _ => 0%nat) (main s) = 0%nat) as -> by (by destruct (main s)).
    simpl. induction (workers s) as [|g0 ws IH]; simpl; [done|].
    rewrite IH. unfold worker_count. by destruct (g_pc g0). }
  rewrite Hz in Hx. rewrite Nat.add_0_r in Hx. apply Hx. intros w. specialize (Hle w). lia.
Qed.

Lemma due_le_volume s :
  0 <= processed_due s <= volume s /\ 0 <= errors_due s <= volume s.
Proof.
  unfold processed_due, errors_due, volume, records.
  pose proof (in_progress_mono counted_processed (fun _ => 1%nat) s) as Hp.
  pose proof (in_progress_mono counted_error (fun _ => 1%nat) s) as He.
  rewrite length_app.
  assert (in_progress counted_processed s <= in_progress (fun _ => 1%nat) s)%nat
    by (apply Hp; intros []; simpl; lia).
  assert (in_progress counted_error s <= in_progress (fun _ => 1%nat) s)%nat
    by (apply He; intros []; simpl; lia).
  lia.
Qed.

Lemma errors_due_le s :
  errors_due s <= processed_due s + Z.of_nat (in_progress between_increments s).
Proof.
  unfold processed_due, errors_due, records. rewrite length_app.
  pose proof (in_progress_le counted_error counted_processed between_increments s) as Hx.
  assert (in_progress counted_error s <=
          in_progress counted_processed s + in_progress between_increments s)%nat
    by (apply Hx; intros []; simpl; lia).
  lia.
Qed.

Lemma reachable_counters w input out err connections s :
  written out = [] -> written err = [] ->
  reachable (RunWith w input out err (PrintStats true) connections) s ->
  counters_ok s /\ (main s = Returned None -> forallb finished (workers s) = true) /\
  exists p e, stats s = VerboseStats p e.
Proof.
  intros Hout Herr.
  apply (reachable_invariant (fun s => counters_ok s /\
    (main s = Returned None -> forallb finished (workers s) = true) /\
    exists p e, stats s = VerboseStats p e)).
  - split; [|split; [done|by exists 0, 0]].
    intros _ p e [= <- <-]. unfold processed_due, errors_due, records, in_progress. simpl.
    by rewrite Hout, Herr.
  - intros ev s1 s2 (Hc & Hd & p & e & Hs) Hstep. split; [|split].
    + by eapply step_counters.
    + by eapply step_drained.
    + by eapply verbose_stays.
Qed.

(** Claim C8, as amended. In a run with verbose statistics, as long as no
    write has failed and fewer than 2^63 records are written or under way:
    when [RunWith] has returned nil, [processed] is the number of records on
    the output stream plus that on the error stream and [errors] is the
    number on the error stream; at every moment [errors] is at most
    [processed] plus the number of [writeError] calls that stand between
    their two increments; and no step makes either counter smaller. *)
Theorem counters_of_a_run w input out err connections s :
  written out = [] -> written err = [] ->
  reachable (RunWith w input out err (PrintStats true) connections) s ->
  failed s = false -> volume s < 2 ^ 63 ->
  exists p e, stats s = VerboseStats p e /\
    (main s = Returned None ->
     p = Z.of_nat (length (written (output s))) + Z.of_nat (length (written (errOutput s))) /\
     e = Z.of_nat (length (written (errOutput s)))) /\
    e <= p + Z.of_nat (in_progress between_increments s) /\
    (forall ev s' p' e',
       step ev s = Some s' -> stats s' = VerboseStats p' e' ->
       failed s' = false -> volume s' < 2 ^ 63 -> p <= p' /\ e <= e').
Proof.
  intros Hout Herr Hreach Hnf Hvol.
  destruct (reachable_counters _ _ _ _ _ _ Hout Herr Hreach) as (Hc & Hd & p & e & Hs).
  exists p, e. split; [done|].
  destruct (Hc Hnf p e Hs) as [Hp He].
  pose proof (due_le_volume s) as [Hpv Hev].
  rewrite wrap64_small in Hp, He by lia.
  split; [|split].
  - intros Hret. specialize (Hd Hret). subst p e.
    unfold processed_due, errors_due, in_progress, records.
    rewrite Hret, !finished_no_write by done. simpl. rewrite length_app. lia.
  - subst p e. apply errors_due_le.
  - intros ev s' p' e' Hstep Hs' Hnf' Hvol'.
    assert (Hreach' : reachable (RunWith w input out err (PrintStats true) connections) s')
      by (by eapply reachable_step).
    destruct (reachable_counters _ _ _ _ _ _ Hout Herr Hreach') as (Hc' & _).
    destruct (Hc' Hnf' p' e' Hs') as [Hp' He'].
    pose proof (due_le_volume s') as [Hpv' Hev'].
    rewrite wrap64_small in Hp', He' by lia.
    destruct (step_due_mono _ _ _ Hstep Hnf'). lia.
Qed.

End CounterTheorem.

Section AdmissionClaims.
Context `{GoLib}.

(** The semaphore never holds fewer than no permits, short of the panic of
    [Release]. *)
Lemma step_sem_cur ev s s' :
  (crashed s = None -> 0 <= sem_cur s) -> step ev s = Some s' ->
  (crashed s' = None -> 0 <= sem_cur s').
Proof.
  intros Hinv Hstep. step_cases Hstep; simpl; rewrite ?Hcrashed; try done;
    specialize (Hinv Hcrashed); intros _; lia.
Qed.

Lemma reachable_sem_cur w input out err st connections s :
  reachable (RunWith w input out err st connections) s ->
  crashed s = None -> 0 <= sem_cur s.
Proof.
  apply (reachable_invariant (fun s => crashed s = None -> 0 <= sem_cur s)).
  - simpl. lia.
  - intros ev s1 s2. apply step_sem_cur.
Qed.

Lemma reachable_drained w input out err st connections s :
  reachable (RunWith w input out err st connections) s ->
  main s = Returned None -> forallb finished (workers s) = true.
Proof.
  apply (reachable_invariant
           (fun s => main s = Returned None -> forallb finished (workers s) = true)).
  - done.
  - intros ev s1 s2. apply step_drained.
Qed.

Lemma is_error_Run fs config n :
  is_error (Run fs (set_Connections n config)) = is_error (Run fs config).
Proof.
  unfold Run, NewClient. simpl.
  destruct (readFile fs _); [|done]. destruct (openInput fs _); [|done].
  destruct (openOutput fs (OutputFile config)); [|done].
  destruct (openOutput fs (ErrorFile config)); [|done].
  destruct (Headers config); [done|]. by destruct (ReadMIMEHeader _).
Qed.

Lemma Run_starts fs config s0 :
  Run fs config = Ok s0 ->
  exists w input out err st, s0 = RunWith w input out err st (Connections config).
Proof.
  unfold Run. intros Hrun.
  destruct (readFile fs _); [|done]. destruct (openInput fs _); [|done].
  destruct (openOutput fs (OutputFile config)); [|done].
  destruct (openOutput fs (ErrorFile config)); [|done].
  destruct (NewClient _ _); [|done]. injection Hrun as <-. by repeat eexists.
Qed.

(** Claim C4, as amended. A limit of zero or less is not checked anywhere:
    [Run] fails for it exactly when it fails for any other limit; [RunWith]
    reads the first record as usual; at [Acquire] no permit is ever granted,
    and the call only returns once the context is done; and on an empty input
    the run returns nil without a record. *)
Theorem no_check_of_the_limit fs config :
  Connections config <= 0 ->
  (forall n, is_error (Run fs (set_Connections n config)) = is_error (Run fs config)) /\
  (forall s0, Run fs config = Ok s0 ->
     (forall d rest, input s0 = d :: rest ->
        exists s1, step EvMain s0 = Some s1 /\ row s1 = 1 /\ input s1 = rest) /\
     (forall s variables, reachable s0 s -> main s = AtAcquire variables ->
        step EvMain s = None /\ (ctx_err s = None -> step EvAcquireFails s = None)) /\
     (input s0 = [] ->
        exists s2, exec [EvMain; EvMain] s0 = Some s2 /\ main s2 = Returned None /\
                   records s2 = records s0)).
Proof.
  intros Hc. split; [intros n; apply is_error_Run|].
  intros s0 Hrun. destruct (Run_starts _ _ _ Hrun) as (w & inp & out & err & st & ->).
  split; [|split].
  - simpl. intros d rest ->. unfold step, main_step. simpl.
    destruct d; eexists; (split; [reflexivity|]); by simpl.
  - intros s variables Hreach Hm. unfold step.
    destruct (halted s) eqn:Hh; [done|].
    destruct (not_halted _ Hh) as [Hcr _].
    pose proof (reachable_sem_cur _ _ _ _ _ _ _ Hreach Hcr) as Hcur.
    assert (Hsize : sem_size s = Connections config).
    { revert Hreach. apply (reachable_invariant (fun s => sem_size s = Connections config)).
      - done.
      - intros ev s1 s2 Hs1 Hstep. step_cases Hstep; by simpl. }
    unfold main_step, acquire_fails. rewrite Hm. split.
    + apply decide_False. lia.
    + by intros ->.
  - simpl. intros ->. eexists. split; [reflexivity|]. by split.
Qed.

(** Cancelling the context neither disables nor changes any action of a
    goroutine: what it does next, it does the same with the context done. *)
Lemma cancel_leaves_goroutines s err :
  (forall i, worker_step i (set_ctx_err (Some err) s) =
             option_map (set_ctx_err (Some err)) (worker_step i s)) /\
  (forall i login_reply reply,
     call_step i login_reply reply (set_ctx_err (Some err) s) =
     option_map (set_ctx_err (Some err)) (call_step i login_reply reply s)).
Proof.
  split.
  - intros i. unfold worker_step. simpl. destruct (workers s !! i) as [g|]; [|done].
    destruct (g_pc g) as [|w| | |]; simpl; try done.
    + unfold write_step, Encode. destruct w; simpl; try done;
        by destruct (broken _).
    + by destruct (decide _).
  - intros i login_reply reply. unfold call_step. simpl.
    destruct (workers s !! i) as [g|]; [|done].
    destruct (g_pc g); simpl; try done.
    destruct (processRequest _ _ _ _) as [w1 [response e]]. by destruct e.
Qed.

(** After a failed [Decode] the loop writes the failure record of the row
    and then goes on to [Acquire] for that same row: there is no [continue]. *)
Lemma decode_error_falls_through s e variables rest :
  halted s = false -> main s = AtDecode -> dec_err s = None ->
  input s = Decoded_err e variables :: rest -> broken (errOutput s) = None ->
  exists s', exec [EvMain; EvMain; EvMain; EvMain] s = Some s' /\
    main s' = AtAcquire variables /\ input s' = rest /\
    written (errOutput s') =
    written (errOutput s) ++
    [{| Row := wrap64 (row s + 1); Input := None; Output := ANil; Error := Some e |}].
Proof.
  intros Hh Hm Hde Hin Hbr. destruct (not_halted _ Hh) as [Hcr _].
  unfold exec, step, main_step, halted. simpl.
  unfold halted in Hh. rewrite Hm, Hde, Hin.
  repeat first [rewrite Hcr | rewrite Hbr | progress simpl | progress unfold Encode].
  eexists. split; [reflexivity|]. by simpl.
Qed.

End AdmissionClaims.

Section Rows.
Context `{GoLib}.

Lemma rows_owed_app l1 l2 first :
  rows_owed first (l1 ++ l2) = rows_owed first l1 ++ rows_owed (first + Z.of_nat (length l1)) l2.
Proof.
  revert first. induction l1 as [|d l1 IH]; intros first.
  - simpl. by rewrite Z.add_0_r.
  - assert (Hx : first + Z.of_nat (length (d :: l1)) = first + 1 + Z.of_nat (length l1))
      by (simpl length; lia).
    rewrite Hx. simpl. rewrite IH. by destruct d.
Qed.

Lemma count_flat_map_insert (f : Worker -> list Z) ws i g g' x :
  ws !! i = Some g ->
  (count_occ Z.eq_dec (flat_map f (<[i := g']> ws)) x + count_occ Z.eq_dec (f g) x =
   count_occ Z.eq_dec (flat_map f ws) x + count_occ Z.eq_dec (f g') x)%nat.
Proof.
  intros Hi. rewrite insert_take_drop by (by eapply lookup_lt_Some).
  rewrite <- (take_drop_middle ws i g Hi) at 3.
  rewrite !flat_map_app. simpl. rewrite !count_occ_app. lia.
Qed.

Lemma finished_no_rows ws : forallb finished ws = true -> flat_map worker_rows ws = [].
Proof.
  induction ws as [|g ws IH]; simpl; [done|]. intros [Hg Hws]%andb_prop.
  rewrite IH by done. unfold finished in Hg. unfold worker_rows. by destruct (g_pc g).
Qed.

Variable input0 : list Decoded.
Hypothesis input0_bound : Z.of_nat (length input0) + 1 < 2 ^ 63.

Lemma step_rows ev s s' : rows_ok input0 s -> step ev s = Some s' -> rows_ok input0 s'.
Proof.
  intros Hinv Hstep Hde' Hctx' Hnf'.
  pose proof (failed_not_halted _ (step_not_halted _ _ _ Hstep)) as Hnf.
  assert (Hctx : ctx_err s = None).
  { revert Hctx'. clear -Hstep. step_cases Hstep; simpl; try done; congruence. }
  pose proof (dec_err_stays _ _ _ Hstep Hde') as Hde.
  destruct (Hinv Hde Hctx Hnf) as (consumed & Heq & Hrow & Hend & Hnae & Hperm).
  pose proof (f_equal length Heq) as Hlen. rewrite length_app in Hlen.
  rewrite (Permutation_count_occ Z.eq_dec) in Hperm.
  revert Hde' Hctx' Hnf'. unfold failed.
  step_cases Hstep; simpl; rewrite ?Hcrashed; try done; intros _ _ _;
    try (exfalso; by eapply Hnae);
    lazymatch goal with
    | Hin : input s = ?d :: ?rest, Hm : main s = AtDecode |- _ =>
        exists (consumed ++ [d])
    | _ => exists consumed
    end;
    try match goal with Hin : input s = _ |- _ => rewrite ?Hin in * end;
    rewrite (Permutation_count_occ Z.eq_dec);
    unfold rows_pending, main_rows, records in *; simpl in *;
    repeat match goal with Hm : main _ = _ |- _ => rewrite Hm in * end;
    simpl in *;
    (split; [rewrite <- ?app_assoc; simpl; congruence|]);
    (split; [rewrite ?length_app; simpl in *; rewrite ?wrap64_small; lia|]);
    (split; [first [done | by intros _; apply Hend]|]);
    (split; [done|]);
    intros x; specialize (Hperm x);
    repeat match goal with
    | Hl : workers ?s !! ?i = Some ?g |- context [<[?i := ?g']> (workers ?s)] =>
        lazymatch goal with
        | _ : (count_occ Z.eq_dec (flat_map worker_rows (<[i := g']> (workers s))) x + _ = _)%nat |- _ => fail
        | _ => pose proof (count_flat_map_insert worker_rows _ _ _ g' x Hl)
        end
    end;
    unfold worker_rows in *; simpl in *;
    repeat match goal with Hpc : g_pc _ = _ |- _ => rewrite Hpc in * end;
    rewrite ?rows_owed_app in *; simpl in *;
    rewrite ?map_app, ?flat_map_app, ?count_occ_app in *; simpl in *;
    rewrite ?count_occ_app in *; simpl in *;
    rewrite ?wrap64_small in * by lia;
    repeat match goal with
    | |- context [Z.eq_dec ?a ?b] => destruct (Z.eq_dec a b)
    | Hx : context [Z.eq_dec ?a ?b] |- _ => destruct (Z.eq_dec a b)
    end;
    try lia.
Qed.

Lemma reachable_rows w out err st connections s :
  written out = [] -> written err = [] ->
  reachable (RunWith w input0 out err st connections) s -> rows_ok input0 s.
Proof.
  intros Hout Herr. apply (reachable_invariant (rows_ok input0)).
  - intros _ _. exists []. unfold rows_pending, main_rows, records. simpl.
    rewrite Hout, Herr. by repeat split.
  - intros ev s1 s2. apply step_rows.
Qed.

(** A run that completes, its context never done and no write failed, has
    written exactly the rows it owes: one record for every row read, and a
    second one for every row that failed to decode. *)
Lemma completed_run_rows w out err st connections s :
  written out = [] -> written err = [] ->
  reachable (RunWith w input0 out err st connections) s ->
  main s = Returned None -> ctx_err s = None -> crashed s = None ->
  map Row (records s) ≡ₚ rows_owed 1 input0.
Proof.
  intros Hout Herr Hreach Hret Hctx Hcr.
  assert (Hnf : failed s = false) by (unfold failed; by rewrite Hcr, Hret).
  pose proof (returned_nil_not_stuck _ _ _ _ _ _ _ Hreach Hret) as Hde.
  destruct (reachable_rows _ _ _ _ _ _ Hout Herr Hreach Hde Hctx Hnf)
    as (consumed & Heq & _ & Hend & _ & Hperm).
  pose proof (reachable_drained _ _ _ _ _ _ _ Hreach Hret) as Hd.
  unfold rows_pending, main_rows in Hperm.
  rewrite Hret, finished_no_rows in Hperm by done. simpl in Hperm.
  rewrite app_nil_r in Hperm. rewrite Hend in Heq by (by rewrite Hret).
  rewrite app_nil_r in Heq. by subst consumed.
Qed.

End Rows.

Lemma rows_owed_all_decoded input first :
  all_decoded input = true -> rows_owed first input = seqZ first (Z.of_nat (length input)).
Proof.
  revert first. induction input as [|d input IH]; intros first; [done|].
  simpl. destruct d; [|done|done]. intros Hall. rewrite IH by done.
  rewrite (seqZ_cons first) by lia. do 2 f_equal; lia.
Qed.

(** When every record decodes, a completed run has written one record for
    each of the rows 1..N and nothing else. *)
Lemma completed_run_rows_exact `{GoLib} w input out err st connections s :
  Z.of_nat (length input) + 1 < 2 ^ 63 -> all_decoded input = true ->
  written out = [] -> written err = [] ->
  reachable (RunWith w input out err st connections) s ->
  main s = Returned None -> ctx_err s = None -> crashed s = None ->
  map Row (records s) ≡ₚ seqZ 1 (Z.of_nat (length input)) /\
  length (records s) = length input /\ NoDup (map Row (records s)).
Proof.
  intros Hb Hall Hout Herr Hreach Hret Hctx Hcr.
  pose proof (completed_run_rows input Hb _ _ _ _ _ _ Hout Herr Hreach Hret Hctx Hcr) as Hp.
  rewrite rows_owed_all_decoded in Hp by done.
  split; [done|]. split.
  - apply Permutation_length in Hp. rewrite length_map, length_seqZ in Hp. lia.
  - rewrite Hp. apply NoDup_seqZ.
Qed.

Section Completion.
Context `{GoLib}.

Lemma processRequest_TransportError w variables login_reply e :
  exists w1 response err,
    processRequest w variables login_reply (TransportError e) = (w1, (response, Some err)).
Proof.
  unfold processRequest, Do.
  destruct (ensureValidToken w login_reply) as [w1 [t|e0]]; [|by repeat eexists].
  destruct (marshal_request _ _); [|by repeat eexists].
  destruct (url_error _); by repeat eexists.
Qed.

Lemma lookup_last_worker (ws : list Worker) g : (ws ++ [g]) !! length ws = Some g.
Proof. by rewrite list_lookup_middle. Qed.

Lemma insert_last_worker (ws : list Worker) g g' : <[length ws := g']> (ws ++ [g]) = ws ++ [g'].
Proof. rewrite insert_app_r_alt by lia. by rewrite Nat.sub_diag. Qed.

Lemma forallb_finished_snoc ws g :
  forallb finished (ws ++ [g]) = forallb finished ws && finished g.
Proof. rewrite forallb_app. simpl. by rewrite andb_true_r. Qed.

Lemma exec_cons_Some e es s s1 r :
  step e s = Some s1 -> exec es s1 = r -> exec (e :: es) s = r.
Proof. intros Hs Hr. simpl. by rewrite Hs. Qed.

(** One row of the sequential schedule, from a quiet state to a quiet state. *)
Lemma row_schedule_runs s variables rest :
  quiet s -> input s = Decoded_ok variables :: rest ->
  exists s', exec (row_schedule (length (workers s))) s = Some s' /\
    quiet s' /\ input s' = rest /\ sem_size s' = sem_size s /\
    length (workers s') = S (length (workers s)).
Proof.
  intros (Hm & Hfin & Hcur & Hsize & Hcr & Hctx & Hbr & Hde) Hin.
  destruct (processRequest_TransportError (world s) variables (TransportError "") "unreachable")
    as (w1 & response & err & Hpr).
  destruct s as [inp de rw sz cur ctx st out [eo_written eo_broken] wd mn ws cr].
  simpl in Hm, Hfin, Hcur, Hsize, Hcr, Hctx, Hbr, Hde, Hin, Hpr. subst.
  unfold row_schedule. cbv [workers input sem_size].
  eexists. split.
  - do 8 (eapply exec_cons_Some;
      [ unfold step, halted, main_step, call_step, worker_step, write_step, Encode;
        repeat first
          [ rewrite lookup_last_worker
          | rewrite insert_last_worker
          | rewrite Hpr
          | progress cbv [set_main set_input set_row set_sem_cur set_ctx_err set_stats
                          set_output set_errOutput set_world set_workers set_crashed
                          set_pc launch input dec_err row sem_size sem_cur ctx_err stats output
                          errOutput world main workers crashed written broken g_pc g_row
                          g_variables]
          | case_decide; [|lia]
          | case_decide; [lia|] ];
        reflexivity
      | ]).
    reflexivity.
  - unfold quiet. simpl.
    rewrite forallb_finished_snoc, Hfin, length_app. simpl.
    repeat split; try done; lia.
Qed.

Lemma sequential_schedule_runs input : forall s,
  all_decoded input = true -> quiet s -> Run.input s = input ->
  exists s', exec (sequential_schedule (length (workers s)) (length input)) s = Some s' /\
    main s' = Returned None /\ crashed s' = None /\ ctx_err s' = None.
Proof.
  induction input as [|d input IH]; intros s Hall Hq Hin.
  - destruct Hq as (Hm & Hfin & _ & _ & Hcr & Hctx & _ & Hde).
    unfold sequential_schedule, exec, step, halted, main_step. simpl.
    rewrite Hm, Hde, Hin, Hcr. simpl. rewrite Hcr, Hfin. simpl.
    eexists. split; [reflexivity|]. by simpl.
  - simpl in Hall. destruct d as [variables| |]; [|done|done].
    destruct (row_schedule_runs s variables input Hq Hin) as (s1 & Hex & Hq1 & Hin1 & _ & Hlen).
    destruct (IH s1 Hall Hq1 Hin1) as (s' & Hex' & Hs').
    exists s'. split; [|done]. cbn [sequential_schedule length].
    rewrite exec_app, Hex. by rewrite <- Hlen.
Qed.

(** Every input whose records all decode has a run that completes, given at
    least one connection and an error stream that can be written: the
    sequential one. With [completed_run_rows_exact], that run has written
    one record for each of the rows 1..N. *)
Lemma a_run_completes w input out err st connections :
  all_decoded input = true -> 1 <= connections -> broken err = None ->
  exists s, reachable (RunWith w input out err st connections) s /\
    main s = Returned None /\ crashed s = None /\ ctx_err s = None.
Proof.
  intros Hall Hc Hbr.
  destruct (sequential_schedule_runs input (RunWith w input out err st connections))
    as (s & Hex & Hs); try done.
  exists s. split; [|done]. by eexists.
Qed.

End Completion.

(** *** Examples for the run *)

(** Claim C1, at an input of one record that does not decode (N = 1): the
    run completes with two records for row 1, the failure of the read on the
    error stream and the outcome of the call on the output stream. *)
Lemma malformed_row_recorded_twice :
  exists s,
    exec (H:=Sample.lib) Sample.malformed_schedule Sample.malformed_run = Some s /\
    main s = Returned None /\ crashed s = None /\ ctx_err s = None /\
    length (input Sample.malformed_run) = 1%nat /\
    written (errOutput s) =
      [{| Row := 1; Input := None; Output := ANil;
          Error := Some "json: cannot unmarshal array into Go value" |}] /\
    written (output s) =
      [{| Row := 1; Input := Some []; Output := AMap (Some []); Error := None |}] /\
    map Row (records s) = [1; 1].
Proof. eexists. split; [vm_compute; reflexivity|]. by repeat split. Qed.

(** Claim C2, at an input of one record that does not decode: the loop
    writes the failure record of row 1, then stands at [Acquire] for that
    same row, is granted the one permit, starts the goroutine of row 1, and
    the GraphQL call of the row goes out. *)
Lemma malformed_row_takes_a_permit :
  exists s1 s2 s3 hdr,
    exec (H:=Sample.lib) [EvMain; EvMain; EvMain; EvMain] Sample.malformed_run = Some s1 /\
    map Row (written (errOutput s1)) = [1] /\ main s1 = AtAcquire (Some []) /\
    step (H:=Sample.lib) EvMain s1 = Some s2 /\
    sem_cur s1 = 0 /\ sem_cur s2 = 1 /\
    workers s2 = [{| g_row := 1; g_variables := Some []; g_pc := InCall |}] /\
    step (H:=Sample.lib) (EvCall 0 (TransportError "") (Response 200 "{}")) s2 = Some s3 /\
    wire (world s3) = [GraphQLRequest "https://api" hdr "query Q"].
Proof.
  do 4 eexists. split; [vm_compute; reflexivity|].
  do 3 (split; [reflexivity|]). do 3 (split; [reflexivity|]).
  split; reflexivity.
Qed.


(** Claim C4, refuted as stated: with a limit of zero [Run] raises no
    error and starts [RunWith], and the loop reads the first record. *)
Lemma zero_connections_reads_a_row :
  exists s0 s1,
    Run (H:=Sample.lib) Sample.files (Sample.config 0) = Ok s0 /\
    input s0 = [Decoded_ok (Some [])] /\
    step (H:=Sample.lib) EvMain s0 = Some s1 /\
    row s1 = 1 /\ input s1 = [] /\ main s1 = AtAcquire (Some []).
Proof. do 2 eexists. split; [reflexivity|]. split; [reflexivity|]. by split. Qed.

(** The limit theorem at a configuration with a limit of zero. *)
Lemma no_check_of_the_limit_witness :
  Connections (Sample.config 0) <= 0 /\
  (forall n,
     is_error (Run (H:=Sample.lib) Sample.files (set_Connections n (Sample.config 0))) =
     is_error (Run (H:=Sample.lib) Sample.files (Sample.config 0))) /\
  is_error (Run (H:=Sample.lib) Sample.files (Sample.config 0)) = false.
Proof.
  assert (Hc : Connections (Sample.config 0) <= 0) by (simpl; lia).
  split; [exact Hc|]. split; [|reflexivity].
  exact (proj1 (no_check_of_the_limit (H:=Sample.lib) Sample.files (Sample.config 0) Hc)).
Defined.

(** Claim C8, refuted as stated: between the two increments of
    [writeError] the error counter is ahead of the processed counter. *)
Lemma errors_ahead_of_processed :
  exists s,
    exec (H:=Sample.lib) [EvMain; EvMain] Sample.malformed_run = Some s /\
    Values (stats s) = (0, 1).
Proof. eexists. split; [vm_compute; reflexivity|]. reflexivity. Qed.

(** The counters theorem at the completed run of one malformed record. *)
Lemma counters_of_a_run_witness :
  exists p e,
    stats (Sample.after Sample.malformed_schedule Sample.malformed_run)
    = VerboseStats p e /\ p = 2 /\ e = 1.
Proof.
  destruct (counters_of_a_run (H:=Sample.lib)
              (Sample.a_world (Sample.a_client [] None None))
              [Decoded_err "json: cannot unmarshal array into Go value" (Some [])]
              Sample.no_output Sample.no_output 1
              (Sample.after Sample.malformed_schedule Sample.malformed_run))
    as (p & e & Hs & Hend & _); try reflexivity.
  - exists Sample.malformed_schedule. vm_compute. reflexivity.
  - exists p, e. split; [exact Hs|]. apply Hend. reflexivity.
Defined.

(** The binary64 computation of the program and the integer quotient agree
    on the lifetimes servers hand out (and at the ends of the range). *)
Lemma floor90_float_agrees :
  Forall (fun n => floor90_float n = Some (floor90 n))
    [0; 1; 2; 3; 9; 10; 11; 59; 60; 299; 300; 900; 1799; 3599; 3600; 7200; 43200;
     86399; 86400; 604800; 2592000; 31536000; 2 ^ 33 - 1; 2 ^ 33].
Proof. repeat constructor. Qed.

(** The end-to-end scenario of three rows: never more than two calls in
    flight, three success records in completion order, the error stream
    empty, and the counters at 3 and 0. *)
Lemma three_rows_end_to_end :
  exists s1 s2,
    exec (H:=Sample.lib) Sample.three_rows_start Sample.three_rows = Some s1 /\
    main s1 = AtAcquire (Sample.x_is "3") /\ sem_cur s1 = 2 /\
    step (H:=Sample.lib) EvMain s1 = None /\
    exec (H:=Sample.lib) Sample.three_rows_finish s1 = Some s2 /\
    main s2 = Returned None /\
    written (output s2) =
      [{| Row := 2; Input := Sample.x_is "2"; Output := AMap (Sample.doubled "4");
          Error := None |};
       {| Row := 1; Input := Sample.x_is "1"; Output := AMap (Sample.doubled "2");
          Error := None |};
       {| Row := 3; Input := Sample.x_is "3"; Output := AMap (Sample.doubled "6");
          Error := None |}] /\
    written (errOutput s2) = [] /\ Values (stats s2) = (3, 0).
Proof.
  do 2 eexists. split; [vm_compute; reflexivity|].
  do 3 (split; [reflexivity|]). split; [vm_compute; reflexivity|]. by repeat split.
Qed.

(** ** Further properties of the run *)

Import Invariants.

Section Permits.
Context `{GoLib}.

(** On an input that is JSON all through and whose reader does not fail,
    the decoder never keeps an error. *)
Lemma unstuck_input_keeps_no_error w input out err st connections s :
  Forall (fun d => is_stuck d = false) input ->
  reachable (RunWith w input out err st connections) s -> dec_err s = None.
Proof.
  intros Hin Hreach.
  enough (dec_err s = None /\ Forall (fun d => is_stuck d = false) (Run.input s)) by tauto.
  revert s Hreach.
  apply (reachable_invariant
           (fun s => dec_err s = None /\ Forall (fun d => is_stuck d = false) (Run.input s))).
  - by split.
  - intros ev s1 s2 [Hde Hall] Hstep. step_cases Hstep; simpl; try done;
      try congruence;
      try (apply Forall_cons in Hall as [Hd Hall]; try discriminate Hd);
      (split; [congruence|]); try done;
      match goal with
      | Hi : Run.input s1 = _ |- _ => by rewrite Hi
      end.
Qed.

Lemma sem_size_constant ev s s' : step ev s = Some s' -> sem_size s' = sem_size s.
Proof. intros Hstep. step_cases Hstep; by simpl. Qed.

Lemma ctx_err_stays ev s s' : step ev s = Some s' -> ctx_err s' = None -> ctx_err s = None.
Proof. intros Hstep. step_cases Hstep; simpl; try done; congruence. Qed.

Lemma sum_lookup_le (f : Worker -> nat) ws i g :
  ws !! i = Some g -> (f g <= list_sum (map f ws))%nat.
Proof.
  intros Hi. rewrite <- (take_drop_middle ws i g Hi).
  rewrite map_app, list_sum_app. simpl. lia.
Qed.

Lemma step_permits ev s s' : permits_ok s -> step ev s = Some s' -> permits_ok s'.
Proof.
  intros Hinv Hstep Hctx'.
  destruct (Hinv (ctx_err_stays _ _ _ Hstep Hctx')) as (Hcur & Hmax & Hnae).
  revert Hctx'. unfold in_flight in *.
  step_cases Hstep; simpl; intros Hctx'; try congruence;
    try (exfalso; by eapply Hnae);
    try match goal with
    | Hl : workers ?s !! ?i = Some ?g |- _ => pose proof (sum_lookup_le holding _ _ _ Hl)
    end;
    repeat match goal with
    | Hl : workers ?s !! ?i = Some ?g |- context [<[?i := ?g']> (workers ?s)] =>
        lazymatch goal with
        | _ : (list_sum (map holding (<[i := g']> (workers s))) + _ = _)%nat |- _ => fail
        | _ => pose proof (sum_worker_insert holding _ _ _ g' Hl)
        end
    end;
    unfold holding in *; simpl in *;
    repeat match goal with Hpc : g_pc _ = _ |- _ => rewrite Hpc in * end;
    rewrite ?map_app, ?list_sum_app; simpl;
    (split; [lia|split; [lia|done]]).
Qed.

Lemma reachable_permits w input out err st connections s :
  reachable (RunWith w input out err st connections) s ->
  permits_ok s /\ sem_size s = connections.
Proof.
  apply (reachable_invariant (fun s => permits_ok s /\ sem_size s = connections)).
  - split; [|done]. intros _. simpl. unfold in_flight. simpl. split; [done|]. split; [lia|done].
  - intros ev s1 s2 [Hp Hs] Hstep. split; [by eapply step_permits|].
    by rewrite (sem_size_constant _ _ _ Hstep).
Qed.

Lemma in_flight_finished ws : forallb finished ws = true -> list_sum (map holding ws) = 0%nat.
Proof.
  induction ws as [|g ws IH]; simpl; [done|]. intros [Hg Hws]%andb_prop.
  rewrite IH by done. unfold finished in Hg. unfold holding. by destruct (g_pc g).
Qed.

(** The concurrency ceiling. In a run of [RunWith] whose context is not
    done, the semaphore's count is the number of goroutines that have not yet
    released their permit, that number never exceeds the configured
    connections (and is zero for a limit of zero or less), and when
    [RunWith] returns nil every permit is back. *)
Theorem in_flight_bounded w input out err st connections s :
  reachable (RunWith w input out err st connections) s -> ctx_err s = None ->
  sem_cur s = Z.of_nat (in_flight s) /\
  Z.of_nat (in_flight s) <= Z.max 0 connections /\
  (main s = Returned None -> sem_cur s = 0).
Proof.
  intros Hreach Hctx.
  destruct (reachable_permits _ _ _ _ _ _ _ Hreach) as [Hp Hsize].
  destruct (Hp Hctx) as (Hcur & Hmax & _). rewrite Hsize in Hmax.
  split; [done|]. split; [lia|].
  intros Hret. rewrite Hcur. unfold in_flight.
  by rewrite (in_flight_finished _ (reachable_drained _ _ _ _ _ _ _ Hreach Hret)).
Qed.

End Permits.

(** ** Cancellation while the loop waits for a permit *)

Section Cancellation.
Context `{GoLib}.







End Cancellation.


(** What the failed [Acquire] leads to, at three records and one
    connection: rows 2 and 3 are recorded as failed and started without a
    permit, their calls are answered and written, and the second [Release]
    panics while the call of row 1, the one that was admitted, is still
    under way. *)
Lemma cancelled_run_panics :
  exists s,
    exec (H:=Sample.lib) Scenario.cancelled_schedule Scenario.cancelled_run = Some s /\
    crashed s = Some "semaphore: released more than held" /\
    map Row (written (errOutput s)) = [2; 3] /\
    map Row (written (output s)) = [2; 3] /\
    map g_pc (workers s) = [InCall; AtDone; AtRelease].
Proof. eexists. split; [vm_compute; reflexivity|]. by repeat split. Qed.

Section Endings.
Context `{GoLib}.

Lemma step_main_error_write ev s s' :
  main_error_write s -> step ev s = Some s' -> main_error_write s'.
Proof.
  unfold main_error_write. intros Hinv Hstep.
  step_cases Hstep; simpl; try done;
    repeat match goal with Hm : main _ = _ |- _ => rewrite Hm in * end; by simpl in *.
Qed.

Lemma step_ends ev s s' :
  permits_ok s -> main_error_write s -> step ev s = Some s' -> ends_ok s'.
Proof.
  unfold main_error_write. intros Hp Hw Hstep. unfold permits_ok, in_flight in Hp.
  split.
  - step_cases Hstep; simpl; intros e0 He0; try done;
      try (by apply Hmain in He0);
      repeat match goal with Hm : main _ = _ |- _ => rewrite Hm in * end;
      simpl in *; congruence.
  - step_cases Hstep; simpl; intros e0 He0; try congruence;
      try (injection He0 as <-; by auto).
    right. right. injection He0 as <-. split; [done|]. intros Hctx.
    destruct (Hp Hctx) as (Hcur & _).
    match goal with
    | Hl : workers ?s !! ?i = Some ?g |- _ => pose proof (sum_lookup_le holding _ _ _ Hl) as Hle
    end.
    match type of Hle with
    | (holding ?g <= _)%nat =>
        assert (holding g = 1%nat) as Hg by (unfold holding; by destruct (g_pc g))
    end.
    lia.
Qed.

Lemma reachable_ends w input out err st connections s :
  reachable (RunWith w input out err st connections) s -> ends_ok s.
Proof.
  intros Hreach.
  enough (ends_ok s /\ permits_ok s /\ main_error_write s) by tauto.
  revert s Hreach.
  apply (reachable_invariant (fun s => ends_ok s /\ permits_ok s /\ main_error_write s)).
  - split; [by split|]. split; [|done].
    intros _. simpl. unfold in_flight. simpl. split; [done|]. split; [lia|done].
  - intros ev s1 s2 (_ & Hp & Hw) Hstep. split; [by eapply step_ends|].
    split; [by eapply step_permits|by eapply step_main_error_write].
Qed.

(** How a run ends badly. In every run of [RunWith]: when it returns an
    error, that error is the one the error stream's writer gave; when a
    goroutine has panicked, it is with the error of one of the two writers,
    or in [Release] after the context was done. *)
Theorem abnormal_ends w input out err st connections s :
  reachable (RunWith w input out err st connections) s ->
  (forall e, main s = Returned (Some e) -> broken (errOutput s) = Some e) /\
  (forall e, crashed s = Some e ->
     broken (output s) = Some e \/ broken (errOutput s) = Some e \/
     (e = "semaphore: released more than held" /\ ctx_err s <> None)).
Proof. apply reachable_ends. Qed.

(** A run whose two writers never fail and whose context is never done does
    not end badly: no goroutine panics and [RunWith] returns no error. *)
Theorem clean_run_ends_well w input out err st connections s :
  reachable (RunWith w input out err st connections) s ->
  ctx_err s = None -> broken (output s) = None -> broken (errOutput s) = None ->
  crashed s = None /\ forall e, main s <> Returned (Some e).
Proof.
  intros Hreach Hctx Hout Herr. destruct (reachable_ends _ _ _ _ _ _ _ Hreach) as [Hm Hc].
  split.
  - destruct (crashed s) as [e|] eqn:He; [|done].
    destruct (Hc e eq_refl) as [Hx|[Hx|[_ Hx]]]; congruence.
  - intros e He. specialize (Hm e He). congruence.
Qed.

End Endings.

(** ** Further properties of the client *)

Section Calls.
Context `{GoLib}.

Lemma same_configuration_refl c : same_configuration c c.
Proof. by repeat split. Qed.

Lemma same_configuration_trans c1 c2 c3 :
  same_configuration c1 c2 -> same_configuration c2 c3 -> same_configuration c1 c3.
Proof. unfold same_configuration. intros (?&?&?&?&?) (?&?&?&?&?). repeat split; congruence. Qed.

(** [login] changes the world only by the request it sends and, when it
    succeeds, by the timer it arms. *)
Lemma login_effect o w reply :
  client (login o w reply).1 = client w /\ clock (login o w reply).1 = clock w /\
  (forall e, (login o w reply).2 = Failed e -> timers (login o w reply).1 = timers w) /\
  (forall t, (login o w reply).2 = Ok t ->
     t <> "" /\ exists d, timers (login o w reply).1 = timers w ++ [d]) /\
  (url_error (oauth_URL o) = None /\ wire (login o w reply).1 = wire w ++ [LoginRequest o] \/
   url_error (oauth_URL o) <> None /\ wire (login o w reply).1 = wire w /\
   exists e, (login o w reply).2 = Failed e).
Proof.
  unfold login. destruct (url_error _) as [e0|].
  { do 4 (split; [done|]). right. repeat split; try done. by eexists. }
  destruct reply as [e1|st body]; simpl.
  { do 4 (split; [done|]). by left. }
  destruct (decide (st = 200)); simpl.
  2:{ do 4 (split; [done|]). by left. }
  destruct (decode_login body) as [[a n]|e2]; simpl.
  2:{ do 4 (split; [done|]). by left. }
  destruct (decide (a = "")); simpl.
  { do 4 (split; [done|]). by left. }
  do 3 (split; [done|]). split; [|by left].
  intros t0 [= <-]. split; [done|]. by eexists.
Qed.

(** A failed login leaves nothing behind but the request on the wire: the
    cache stays empty, no timer is armed, and the next call goes through the
    login again exactly as this one did.  [ensureValidToken] fails only with
    OAuth configured and no token cached. *)
Theorem failed_login_not_cached w reply e :
  (ensureValidToken w reply).2 = Failed e ->
  client (ensureValidToken w reply).1 = client w /\
  timers (ensureValidToken w reply).1 = timers w /\
  clock (ensureValidToken w reply).1 = clock w /\
  token (client w) = None /\
  oauth (client w) <> None /\
  forall reply',
    (ensureValidToken (ensureValidToken w reply).1 reply').2 = (ensureValidToken w reply').2.
Proof.
  intros Hf.
  assert (Hfacts : client (ensureValidToken w reply).1 = client w /\
                   timers (ensureValidToken w reply).1 = timers w /\
                   clock (ensureValidToken w reply).1 = clock w /\
                   token (client w) = None /\ exists o, oauth (client w) = Some o).
  { revert Hf. unfold ensureValidToken.
    destruct (oauth (client w)) as [o|] eqn:Ho; [|by destruct (token _)].
    destruct (token (client w)) as [t|] eqn:Ht; simpl.
    { by destruct (decide (t = "")). }
    destruct (login_effect o w reply) as (Hc & Hk & Ht_fail & _ & _).
    destruct (login o w reply) as [w1 [t|e1]] eqn:Hl; simpl in *; [done|].
    intros [= <-]. specialize (Ht_fail e1 eq_refl).
    do 4 (split; [done|]). by exists o. }
  destruct Hfacts as (Hc & Ht & Hk & Hn & o & Ho).
  do 4 (split; [done|]). split; [by rewrite Ho|].
  intros reply'. generalize dependent (ensureValidToken w reply).1. intros w1 Hc _ _.
  unfold ensureValidToken. rewrite Hc, Ho, Hn. simpl.
  unfold login. destruct (url_error _); [done|].
  destruct reply' as [|st body]; [done|]. simpl.
  destruct (decide (st = 200)); [|done].
  destruct (decode_login body) as [[a n]|]; [|done]. simpl.
  by destruct (decide (a = "")).
Qed.

Lemma ensureValidToken_effect w reply :
  same_configuration (client w) (client (ensureValidToken w reply).1) /\
  clock (ensureValidToken w reply).1 = clock w /\
  (timers_ok w -> timers_ok (ensureValidToken w reply).1) /\
  (oauth (client w) = None -> ensureValidToken w reply =
     (w, Ok (match token (client w) with Some t => t | None => "" end))) /\
  exists logins,
    wire (ensureValidToken w reply).1 = wire w ++ logins /\
    (logins = [] \/
     exists o, logins = [LoginRequest o] /\ oauth (client w) = Some o /\
               token (client w) = None).
Proof.
  unfold ensureValidToken.
  destruct (oauth (client w)) as [o|] eqn:Ho.
  2:{ destruct (token (client w));
        (split; [apply same_configuration_refl|split; [done|split; [done|split; [done|]]]]);
        exists []; rewrite app_nil_r; by split; [|left]. }
  destruct (token (client w)) as [t|] eqn:Ht; simpl.
  { destruct (decide (t = ""));
      (split; [apply same_configuration_refl|split; [done|split; [done|split; [done|]]]]);
      exists []; rewrite app_nil_r; by split; [|left]. }
  destruct (login_effect o w reply) as (Hc & Hk & Ht_fail & Ht_ok & Hwire).
  destruct (login o w reply) as [w1 [t|e1]] eqn:Hl; simpl in *.
  - destruct (Ht_ok t eq_refl) as (Hne & d & Hd).
    split; [unfold same_configuration; simpl; by rewrite Hc|].
    split; [done|]. split; [|split; [done|]].
    + intros [Hnil|(d0 & _ & Hx)]; [|done]. right. exists d. simpl.
      rewrite Hd, Hnil. by split.
    + destruct Hwire as [[_ Hw]|(_ & _ & [e2 He2])]; [|done].
      exists [LoginRequest o]. split; [done|]. right. by exists o.
  - split; [unfold same_configuration; by rewrite Hc|].
    split; [done|]. split; [|split; [done|]].
    + unfold timers_ok. by rewrite (Ht_fail e1 eq_refl), Hc.
    + destruct Hwire as [[_ Hw]|(_ & Hw & _)].
      * exists [LoginRequest o]. split; [done|]. right. by exists o.
      * exists []. rewrite app_nil_r. by split; [|left].
Qed.

(** The requests of one call of [Do]: the logins, then the calls. *)
Lemma Do_requests w variables login_reply reply :
  same_configuration (client w) (client (Do w variables login_reply reply).1) /\
  exists logins calls,
    wire (Do w variables login_reply reply).1 = wire w ++ logins ++ calls /\
    (logins = [] \/
     exists o, logins = [LoginRequest o] /\ oauth (client w) = Some o /\
               token (client w) = None) /\
    (call_made w variables login_reply = false /\ calls = [] \/
     call_made w variables login_reply = true /\
     exists hdr body, calls = [GraphQLRequest (url (client w)) hdr body] /\
                      marshal_request (query (client w)) variables = Ok body).
Proof.
  unfold Do, call_made.
  destruct (ensureValidToken_effect w login_reply) as (Hsame & _ & _ & _ & logins & Hw & Hl).
  destruct Hsame as (Htr & Hq & Hu & Hh & Ho).
  destruct (ensureValidToken w login_reply) as [w1 [t|e0]]; simpl in *.
  2:{ split; [done|]. exists logins, []. rewrite app_nil_r. split; [done|]. split; [done|by left]. }
  rewrite Hq, Hu.
  destruct (marshal_request _ _) as [body|e0] eqn:Hb.
  2:{ split; [done|]. exists logins, []. rewrite app_nil_r. split; [done|]. split; [done|by left]. }
  destruct (url_error _) as [e0|].
  { split; [done|]. exists logins, []. rewrite app_nil_r. split; [done|]. split; [done|by left]. }
  set (request := GraphQLRequest (url (client w)) (request_header (client w1) t) body).
  assert (Hsent : forall w2 : World,
    w2 = send request w1 ->
    same_configuration (client w) (client w2) /\
    exists logins0 calls,
      wire w2 = wire w ++ logins0 ++ calls /\
      (logins0 = [] \/ exists o, logins0 = [LoginRequest o] /\ oauth (client w) = Some o /\
                                 token (client w) = None) /\
      (true = false /\ calls = [] \/
       true = true /\ exists hdr body0, calls = [GraphQLRequest (url (client w)) hdr body0] /\
                                       Ok body = Ok body0)).
  { intros w2 ->. split; [done|].
    exists logins, [request].
    simpl. rewrite Hw, <- app_assoc. split; [done|]. split; [done|]. right.
    split; [done|]. by repeat eexists. }
  destruct reply as [e1|st b]; [by apply Hsent|].
  destruct (decide _); by apply Hsent.
Qed.

(** What [Do] sends, whatever it is answered: at most one login request,
    and that only when OAuth is configured and no token is cached; then
    exactly one GraphQL request, to the configured URL and with the
    marshalled query and variables as its body, when it has a token, a body
    and a request, and none otherwise. It never sends a request twice. *)
Theorem Do_sends w variables login_reply reply :
  same_configuration (client w) (client (Do w variables login_reply reply).1) /\
  exists logins calls,
    wire (Do w variables login_reply reply).1 = wire w ++ logins ++ calls /\
    (logins = [] \/
     exists o, logins = [LoginRequest o] /\ oauth (client w) = Some o /\
               token (client w) = None) /\
    (call_made w variables login_reply = false /\ calls = [] \/
     call_made w variables login_reply = true /\
     exists hdr body, calls = [GraphQLRequest (url (client w)) hdr body] /\
                      marshal_request (query (client w)) variables = Ok body).
Proof. apply Do_requests. Qed.

End Calls.

Section Worlds.
Context `{GoLib}.

Lemma processRequest_world w variables login_reply reply :
  (processRequest w variables login_reply reply).1 = (Do w variables login_reply reply).1.
Proof.
  unfold processRequest. destruct (Do _ _ _ _) as [w1 [body [e|]]]; simpl; [done|].
  by destruct (decode_object _).
Qed.

Lemma Do_world w variables login_reply reply :
  client (Do w variables login_reply reply).1 = client (ensureValidToken w login_reply).1 /\
  timers (Do w variables login_reply reply).1 = timers (ensureValidToken w login_reply).1 /\
  clock (Do w variables login_reply reply).1 = clock (ensureValidToken w login_reply).1.
Proof.
  unfold Do. destruct (ensureValidToken _ _) as [w1 [t|e]]; simpl; [|done].
  destruct (marshal_request _ _); [|done]. destruct (url_error _); [done|].
  destruct reply; [done|]. by destruct (decide _).
Qed.

(** A step leaves the client and its timers alone, or is a call of [Do], or
    is the passing of time. *)
Lemma step_world ev s s' :
  step ev s = Some s' ->
  world s' = world s \/
  (exists variables login_reply reply,
     world s' = (Do (world s) variables login_reply reply).1) \/
  (exists dt, 0 <= dt /\ world s' = advance dt (world s)).
Proof.
  intros Hstep. step_cases Hstep; simpl; try (by left).
  - right. left. do 3 eexists. rewrite <- processRequest_world.
    match goal with Hp : processRequest _ _ _ _ = _ |- _ => by rewrite Hp end.
  - right. left. do 3 eexists. rewrite <- processRequest_world.
    match goal with Hp : processRequest _ _ _ _ = _ |- _ => by rewrite Hp end.
  - right. right. by eexists.
Qed.

Lemma world_invariant (P : World -> Prop) w input out err st connections s :
  (forall w1 variables login_reply reply, P w1 -> P (Do w1 variables login_reply reply).1) ->
  (forall w1 dt, 0 <= dt -> P w1 -> P (advance dt w1)) ->
  P w -> reachable (RunWith w input out err st connections) s -> P (world s).
Proof.
  intros HDo Hadv Hw. apply (reachable_invariant (fun s => P (world s))); [done|].
  intros ev s1 s2 HP Hstep.
  destruct (step_world _ _ _ Hstep) as [->|[(v & lr & r & ->)|(dt & Hdt & ->)]]; auto.
Qed.

Lemma timers_ok_Do w variables login_reply reply :
  timers_ok w -> timers_ok (Do w variables login_reply reply).1.
Proof.
  intros Hw. destruct (Do_world w variables login_reply reply) as (Hc & Ht & _).
  destruct (ensureValidToken_effect w login_reply) as (_ & _ & Hok & _).
  specialize (Hok Hw). unfold timers_ok in *. by rewrite Hc, Ht.
Qed.

Lemma timers_ok_advance w dt : timers_ok w -> timers_ok (advance dt w).
Proof.
  unfold timers_ok, advance, fire_timers. simpl.
  intros [Hnil|(d & Hd & Htok)].
  - rewrite Hnil. by left.
  - rewrite Hd, !filter_cons, !filter_nil.
    destruct (decide (d <= clock w + dt)) as [Hle|Hgt]; simpl.
    + destruct (decide (~ d <= clock w + dt)); [done|]. by left.
    + right. by exists d.
Qed.

Lemma same_configuration_Do w variables login_reply reply :
  same_configuration (client w) (client (Do w variables login_reply reply).1).
Proof.
  destruct (Do_world w variables login_reply reply) as (Hc & _).
  destruct (ensureValidToken_effect w login_reply) as (Hs & _).
  unfold same_configuration in *. by rewrite Hc.
Qed.

Lemma same_configuration_advance w dt : same_configuration (client w) (client (advance dt w)).
Proof.
  unfold advance, fire_timers. simpl.
  destruct (filter _ _); simpl; [apply same_configuration_refl|done].
Qed.

(** Through a whole run the client keeps its transport, query, URL, headers
    and OAuth configuration, whatever the servers answer and however time
    passes: only the cached token changes. And the expiry timers do not pile
    up: at most one is pending at any moment, and none while no token is
    cached. *)
Theorem client_through_a_run w input out err st connections s :
  reachable (RunWith w input out err st connections) s ->
  timers_ok w ->
  same_configuration (client w) (client (world s)) /\
  (length (timers (world s)) <= 1)%nat /\
  (token (client (world s)) = None -> timers (world s) = []).
Proof.
  intros Hreach Hw.
  assert (Hinv : same_configuration (client w) (client (world s)) /\ timers_ok (world s)).
  { revert Hreach.
    apply (world_invariant (fun w1 => same_configuration (client w) (client w1) /\ timers_ok w1)).
    - intros w1 v lr r [Hs Ht]. split; [|by apply timers_ok_Do].
      eapply same_configuration_trans; [done|apply same_configuration_Do].
    - intros w1 dt _ [Hs Ht]. split; [|by apply timers_ok_advance].
      eapply same_configuration_trans; [done|apply same_configuration_advance].
    - split; [apply same_configuration_refl|done]. }
  destruct Hinv as [Hs [Hnil|(d & Hd & Htok)]]; (split; [done|]).
  - rewrite Hnil. simpl. split; [lia|done].
  - rewrite Hd. simpl. split; [lia|done].
Qed.

Lemma ensureValidToken_kept w login_reply :
  oauth (client w) = None \/ token (client w) <> None ->
  ensureValidToken w login_reply =
  (w, Ok (match token (client w) with Some t => t | None => "" end)).
Proof.
  unfold ensureValidToken. intros [Ho|Ht].
  - rewrite Ho. by destruct (token (client w)).
  - destruct (oauth (client w)); destruct (token (client w)) as [t|]; try done.
    simpl. by destruct (decide (t = "")).
Qed.

(** A token that was not obtained by a login is never replaced. Where the
    client has no OAuth configuration, or starts with a token in its cache
    and no timer, a run never logs in: the client stays as it was, no timer
    is armed, and every request on the wire is a GraphQL request to the
    configured URL under one and the same header. *)
Lemma unrefreshed_token_run w input out err st connections s :
  reachable (RunWith w input out err st connections) s ->
  oauth (client w) = None \/ token (client w) <> None -> timers w = [] -> wire w = [] ->
  client (world s) = client w /\ timers (world s) = [] /\
  Forall (fun r => exists body,
            r = GraphQLRequest (url (client w))
                  (request_header (client w)
                     (match token (client w) with Some t => t | None => "" end)) body)
         (wire (world s)).
Proof.
  intros Hreach Ho Ht Hw. revert Hreach.
  apply (world_invariant (fun w1 => client w1 = client w /\ timers w1 = [] /\
    Forall (fun r => exists body,
              r = GraphQLRequest (url (client w))
                    (request_header (client w)
                       (match token (client w) with Some t => t | None => "" end)) body)
           (wire w1))).
  - intros w1 v lr r (Hc & Htm & Hwire).
    pose proof (ensureValidToken_kept w1 lr) as Hst.
    rewrite Hc in Hst. specialize (Hst Ho).
    unfold Do. rewrite Hst, Hc.
    destruct (marshal_request _ _) as [body|]; [|done].
    destruct (url_error _); [done|].
    assert (Hsent : forall w2 : World,
      w2 = send (GraphQLRequest (url (client w))
                   (request_header (client w)
                      (match token (client w) with Some t => t | None => "" end)) body) w1 ->
      client w2 = client w /\ timers w2 = [] /\
      Forall (fun r => exists body,
                r = GraphQLRequest (url (client w))
                      (request_header (client w)
                         (match token (client w) with Some t => t | None => "" end)) body)
             (wire w2)).
    { intros w2 ->. simpl. do 2 (split; [done|]).
      apply Forall_app. split; [done|]. apply Forall_singleton. by eexists. }
    destruct r; [by apply Hsent|]. destruct (decide _); by apply Hsent.
  - intros w1 dt _ (Hc & Htm & Hwire). unfold advance, fire_timers. simpl.
    by rewrite Htm.
  - rewrite Hw. by repeat split.
Qed.

(** A configured bearer token is used as it is, for the whole run, and so
    is the absence of any credentials. With a client made by [NewClient] from
    a configuration that has a bearer token (even if it has an OAuth
    configuration as well) or has no OAuth URL, a run never logs in and arms
    no timer, the client stays as [NewClient] made it, and every request sent
    is a GraphQL request to the configured URL under the header made of the
    configured headers and the configured token. *)
Theorem configured_token_is_kept config query c input out err st connections s :
  NewClient config query = Ok c ->
  BearerToken config <> "" \/ oauth_URL (OAuth config) = "" ->
  reachable (RunWith {| client := c; clock := 0; timers := []; wire := [] |}
               input out err st connections) s ->
  client (world s) = c /\ timers (world s) = [] /\
  Forall (fun r => exists body,
            r = GraphQLRequest (URL config) (request_header c (BearerToken config)) body)
         (wire (world s)).
Proof.
  intros Hnew Hcfg Hreach.
  assert (Hc : url c = URL config /\
               (oauth c = None \/ token c <> None) /\
               match token c with Some t => t | None => "" end = BearerToken config).
  { revert Hnew. unfold NewClient.
    assert (Hmake : forall hdr,
      let c0 := {| transport := {| MaxConnsPerHost := Connections config;
                                   MaxIdleConns := Connections config;
                                   MaxIdleConnsPerHost := Connections config |};
                   query := query; url := URL config; header := hdr;
                   oauth := if decide (oauth_URL (OAuth config) = "") then None
                            else Some (OAuth config);
                   token := if decide (BearerToken config = "") then None
                            else Some (BearerToken config) |} in
      url c0 = URL config /\ (oauth c0 = None \/ token c0 <> None) /\
      match token c0 with Some t => t | None => "" end = BearerToken config).
    { intros hdr. simpl. split; [done|].
      destruct (decide (BearerToken config = "")) as [Hb|Hb];
        destruct (decide (oauth_URL (OAuth config) = "")) as [Hu|Hu]; simpl;
        (split; [|done]); try (by left); try (by right).
      by destruct Hcfg. }
    destruct (Headers config); [intros [= <-]; apply Hmake|].
    destruct (ReadMIMEHeader _); [|done]. intros [= <-]. apply Hmake. }
  destruct Hc as (Hu & Ho & Ht).
  pose proof (unrefreshed_token_run _ _ _ _ _ _ _ Hreach Ho eq_refl eq_refl) as Hrun.
  simpl in Hrun. by rewrite Hu, Ht in Hrun.
Qed.

End Worlds.

Section Tracking.
Context `{GoLib}.

Lemma processRequest_shape w variables login_reply reply w1 response err :
  processRequest w variables login_reply reply = (w1, (response, err)) ->
  is_map response = match err with None => true | Some _ => false end.
Proof.
  unfold processRequest. destruct (Do _ _ _ _) as [w2 [body [e|]]].
  - by intros [= _ <- <-].
  - destruct (decode_object _); by intros [= _ <- <-].
Qed.

Variable input0 : list Decoded.
Hypothesis input0_bound : Z.of_nat (length input0) + 1 < 2 ^ 63.

Lemma worker_ok_insert (ws : list Worker) i g' :
  (forall j g0, ws !! j = Some g0 -> worker_ok input0 j g0) ->
  worker_ok input0 i g' ->
  forall j g0, <[i := g']> ws !! j = Some g0 -> worker_ok input0 j g0.
Proof.
  intros Hws Hg j g0 [(-> & -> & _)|[_ Hj]]%list_lookup_insert_Some; auto.
Qed.

Lemma worker_ok_launch (ws : list Worker) started d rest g :
  (forall j g0, ws !! j = Some g0 -> worker_ok input0 j g0) ->
  length ws = length started -> input0 = started ++ [d] ++ rest ->
  g_row g = Z.of_nat (length started) + 1 -> g_variables g = vars_of d -> g_pc g = InCall ->
  forall j g0, (ws ++ [g]) !! j = Some g0 -> worker_ok input0 j g0.
Proof.
  intros Hws Hlen Hin Hrow Hvars Hpc j g0 [Hj|[Hle Hj]]%lookup_app_Some; [auto|].
  apply list_lookup_singleton_Some in Hj as [Hj ->].
  assert (j = length started) as -> by lia.
  unfold worker_ok. rewrite Hrow, Hvars, Hpc. split; [done|]. split; [|done].
  exists d. split; [|done]. rewrite Hin. by rewrite lookup_app_r, Nat.sub_diag.
Qed.

Lemma step_tracked ev s s' :
  tracked input0 s -> step ev s = Some s' -> dec_err s' = None -> tracked input0 s'.
Proof.
  intros (started & current & Hin & Hlen & Hloop & Hws) Hstep Hde'.
  pose proof (f_equal length Hin) as Hlens. rewrite !length_app in Hlens.
  revert Hde'. unfold tracked, loop_ok in *.
  step_cases Hstep; simpl in *; intros Hde'; try congruence;
    try (exists started, current; simpl; done);
    repeat match goal with
    | Hc : _ /\ _ |- _ => destruct Hc
    | Hc : exists _, _ |- _ => destruct Hc
    end;
    lazymatch goal with
    | Hi : input s = ?d :: ?rest, Hm : main s = AtDecode |- _ => exists started, [d]
    | Hc : current = [?d] |- context [workers s ++ _] => exists (started ++ [d]), []
    | _ => exists started, current
    end;
    try subst current;
    rewrite ?length_insert, ?length_app in *; simpl in *;
    rewrite ?wrap64_small by lia;
    (split; [rewrite <- ?app_assoc; simpl; congruence|]);
    (split; [lia|]);
    (split;
      [ first [ exact Hloop
              | unfold write_ok, checkAndWriteError, writeError; simpl;
                repeat split; eauto; lia ]
      | first [ done
              | match goal with
                | Hv : vars_of ?d = _ |- _ =>
                    by (eapply (worker_ok_launch _ started d (input s));
                        [done|done|done|simpl; lia|done|done])
                end
              | eapply worker_ok_insert; [done|] ] ]);
    match goal with
    | Hl : workers s !! ?i = Some ?g |- _ =>
        destruct (Hws _ _ Hl) as (Hrow & Hd & Hpc)
    end;
    try match goal with
    | Hp : processRequest _ _ _ _ = _ |- _ => apply processRequest_shape in Hp
    end;
    unfold worker_ok, write_ok, writeError, writeResponse in *; simpl in *;
    repeat match goal with Hg : g_pc _ = _ |- _ => rewrite Hg in * end;
    simpl in *; try done.
Qed.

Lemma reachable_tracked w out err st connections s :
  reachable (RunWith w input0 out err st connections) s ->
  dec_err s = None -> tracked input0 s.
Proof.
  apply (reachable_invariant (fun s => dec_err s = None -> tracked input0 s)).
  - intros _. exists [], []. simpl. repeat split; try done.
  - intros ev s1 s2 Hinv Hstep Hde. eapply step_tracked; [|done|done].
    apply Hinv. by eapply dec_err_stays.
Qed.

Lemma map_insert_same {B} (f : Worker -> B) (ws : list Worker) i g g' :
  ws !! i = Some g -> f g' = f g -> map f (<[i := g']> ws) = map f ws.
Proof.
  intros Hi Hf. rewrite insert_take_drop by (by eapply lookup_lt_Some).
  rewrite <- (take_drop_middle ws i g Hi) at 3.
  rewrite !map_app. simpl. by rewrite Hf.
Qed.

Lemma of_input_current started d rest r :
  input0 = started ++ [d] ++ rest -> Row r = Z.of_nat (length started) + 1 ->
  of_input input0 r d.
Proof.
  intros Hin Hrow. unfold of_input. rewrite Hrow. split; [lia|].
  replace (Z.to_nat (Z.of_nat (length started) + 1 - 1)) with (length started) by lia.
  rewrite Hin. by rewrite lookup_app_r, Nat.sub_diag.
Qed.

Lemma of_input_worker i d r :
  input0 !! i = Some d -> Row r = Z.of_nat i + 1 -> of_input input0 r d.
Proof.
  intros Hi Hrow. unfold of_input. rewrite Hrow. split; [lia|].
  by replace (Z.to_nat (Z.of_nat i + 1 - 1)) with i by lia.
Qed.

Lemma step_streams out err ev s s' :
  tracked input0 s -> streams_ok input0 out err s -> step ev s = Some s' ->
  dec_err s' = None -> streams_ok input0 out err s'.
Proof.
  intros (started & current & Hin & Hlen & Hloop & Hws)
         (new_out & new_err & Hout & Herr & Hresp & Hfail & Hcount) Hstep Hde'.
  revert Hde'. unfold streams_ok, loop_ok in *.
  step_cases Hstep; simpl in *; intros Hde'; try congruence;
    try (exists new_out, new_err; simpl; done);
    try (exfalso; by destruct Hloop as (_ & _ & Hf & _));
    lazymatch goal with
    | |- context [written (errOutput s) ++ [?r] = _] => exists new_out, (new_err ++ [r])
    | |- context [written (output s) ++ [?r] = _] => exists (new_out ++ [r]), new_err
    | |- _ => exists new_out, new_err
    end;
    (split; [rewrite ?Hout; by rewrite <- ?app_assoc|]);
    (split; [rewrite ?Herr; by rewrite <- ?app_assoc|]);
    try match goal with
    | Hl : workers s !! ?i = Some ?g |- _ =>
        destruct (Hws _ _ Hl) as (Hrow & (d & Hd & Hvars) & Hpc)
    end;
    repeat match goal with
    | Hc : _ /\ _ |- _ => destruct Hc
    | Hc : exists _, _ |- _ => destruct Hc
    end;
    unfold write_ok in *; simpl in *;
    repeat match goal with Hg : g_pc _ = _ |- _ => rewrite Hg in * end;
    simpl in *;
    repeat match goal with
    | Hc : _ /\ _ |- _ => destruct Hc
    end;
    try subst current;
    (split; [first [ done
                   | apply Forall_app; split; [done|]; apply Forall_singleton;
                     unfold response_record; repeat split; try done;
                     exists d; split; [apply (of_input_worker _ _ _ Hd)|]; congruence ]|
     split; [first [ done
                   | apply Forall_app; split; [done|]; apply Forall_singleton;
                     unfold failure_record; repeat split; try done;
                     first [ exists d; split; [apply (of_input_worker _ _ _ Hd)|left];
                             congruence
                           | eexists; split; [eapply of_input_current; [done|congruence]|];
                             by right ] ]|]]).
  all: intros x0; specialize (Hcount x0);
    try match goal with
    | Hl : workers ?s0 !! ?i = Some ?g |- context [<[?i := ?g']> (workers ?s0)] =>
        pose proof (count_flat_map_insert to_write _ _ _ g' x0 Hl);
        rewrite (map_insert_same g_row _ _ _ g' Hl) by done
    end;
    unfold to_write in *; simpl in *;
    repeat match goal with Hg : g_pc _ = _ |- _ => rewrite Hg in * end;
    rewrite ?map_app, ?flat_map_app, ?count_occ_app in *; simpl in *;
    repeat match goal with
    | |- context [Z.eq_dec ?a ?b] => destruct (Z.eq_dec a b)
    | Hx : context [Z.eq_dec ?a ?b] |- _ => destruct (Z.eq_dec a b)
    end;
    try lia; try congruence.
Qed.

Lemma reachable_streams w out err st connections s :
  reachable (RunWith w input0 out err st connections) s ->
  dec_err s = None -> tracked input0 s /\ streams_ok input0 out err s.
Proof.
  apply (reachable_invariant
           (fun s => dec_err s = None -> tracked input0 s /\ streams_ok input0 out err s)).
  - intros _. split.
    + exists [], []. simpl. repeat split; try done.
    + exists [], []. simpl. rewrite !app_nil_r. repeat split; done.
  - intros ev s1 s2 Hinv Hstep Hde.
    destruct (Hinv (dec_err_stays _ _ _ Hstep Hde)) as [Ht Hs].
    split; [by eapply step_tracked|by eapply step_streams].
Qed.

End Tracking.

Section Rows.
Context `{GoLib}.

(** The goroutines follow the input. In every state of a run over fewer
    than 2^63 - 1 records in which the decoder has kept no error (it has met
    no syntax error and no error of its reader), the goroutines started are,
    in order, those of the first records of the input: the [i]-th is that of
    row [i + 1] and carries the variable set [Decode] left for the [i]-th
    record (nil for the record [null]). There are never more goroutines than
    records, and when [RunWith] returns nil there is one for every record. *)
Theorem goroutines_follow_input w input out err st connections s :
  Z.of_nat (length input) + 1 < 2 ^ 63 ->
  reachable (RunWith w input out err st connections) s ->
  dec_err s = None ->
  (length (workers s) <= length input)%nat /\
  (main s = Returned None -> length (workers s) = length input) /\
  forall i g, workers s !! i = Some g ->
    g_row g = Z.of_nat i + 1 /\
    exists d, input !! i = Some d /\ g_variables g = vars_of d.
Proof.
  intros Hb Hreach Hde.
  destruct (reachable_tracked input Hb _ _ _ _ _ _ Hreach Hde)
    as (started & current & Hin & Hlen & Hloop & Hws).
  pose proof (f_equal length Hin) as Hlens. rewrite !length_app in Hlens.
  split; [lia|]. split.
  - intros Hret. unfold loop_ok in Hloop. rewrite Hret in Hloop.
    destruct Hloop as (-> & Hnil & _). rewrite Hnil in Hlens. simpl in Hlens. lia.
  - intros i g Hi. destruct (Hws i g Hi) as (Hrow & Hd & _). by split.
Qed.

(** What is written where. As long as the decoder has kept no error, every
    record a run puts on the output stream is a success record: no error, as
    output the decoded response (a map, nil for the body [null]), the row
    number of one record of the input and as input the variables of that
    record (the nil map for the record [null]); and every record it puts on
    the error stream is a failure record: an error, no decoded response, the
    row number of a record of the input, and as input either the variables
    of that record (the call failed) or, with no output, the nil map (the
    read or the admission failed). *)
Theorem records_match_input w input out err st connections s :
  Z.of_nat (length input) + 1 < 2 ^ 63 ->
  reachable (RunWith w input out err st connections) s ->
  dec_err s = None ->
  Forall (response_record input) (new_output out s) /\
  Forall (failure_record input) (new_errOutput err s).
Proof.
  intros Hb Hreach Hde.
  destruct (reachable_streams input Hb _ out err _ _ _ Hreach Hde)
    as (_ & new_out & new_err & Hout & Herr & Hresp & Hfail & _).
  unfold new_output, new_errOutput. rewrite Hout, Herr.
  by rewrite !drop_app_length.
Qed.

Lemma NoDup_count (l : list Z) :
  NoDup l <-> forall x, (count_occ Z.eq_dec l x <= 1)%nat.
Proof. rewrite NoDup_ListNoDup. apply (NoDup_count_occ Z.eq_dec). Qed.

Lemma rows_of_goroutines_distinct input (ws : list Worker) :
  (forall i g, ws !! i = Some g -> worker_ok input i g) -> NoDup (map g_row ws).
Proof.
  intros Hws. change (map g_row ws) with (g_row <$> ws). apply NoDup_alt.
  intros i j x [gi [-> Hi]]%list_lookup_fmap_Some [gj [Hx Hj]]%list_lookup_fmap_Some.
  destruct (Hws _ _ Hi) as (Hri & _). destruct (Hws _ _ Hj) as (Hrj & _). lia.
Qed.

(** No row is answered twice. In every state of a run in which the decoder
    has kept no error, the records put on the output stream have pairwise
    different row numbers, whatever the schedule of the goroutines and
    whatever the servers answer. *)
Theorem output_rows_distinct w input out err st connections s :
  Z.of_nat (length input) + 1 < 2 ^ 63 ->
  reachable (RunWith w input out err st connections) s ->
  dec_err s = None ->
  NoDup (map Row (new_output out s)).
Proof.
  intros Hb Hreach Hde.
  destruct (reachable_streams input Hb _ out err _ _ _ Hreach Hde)
    as ((started & current & _ & _ & _ & Hws) & new_out & new_err & Hout & _ & _ & _ & Hcount).
  unfold new_output. rewrite Hout, drop_app_length.
  apply NoDup_count. intros x.
  pose proof (rows_of_goroutines_distinct _ _ Hws) as Hnd.
  rewrite NoDup_count in Hnd. specialize (Hnd x). specialize (Hcount x). lia.
Qed.

End Rows.

Section Wire.
Context `{GoLib}.

Lemma graphql_requests_app l1 l2 :
  graphql_requests (l1 ++ l2) = (graphql_requests l1 + graphql_requests l2)%nat.
Proof. unfold graphql_requests. by rewrite List.filter_app, length_app. Qed.

Lemma wire_advance dt w : wire (advance dt w) = wire w.
Proof. unfold advance, fire_timers. simpl. by destruct (filter _ _). Qed.

Variable w0 : World.
Variable input0 : list Decoded.

Lemma request_of_input_Do w variables login_reply reply d :
  same_configuration (client w0) (client w) -> d ∈ input0 -> variables = vars_of d ->
  same_configuration (client w0) (client (Do w variables login_reply reply).1) /\
  exists new,
    wire (Do w variables login_reply reply).1 = wire w ++ new /\
    Forall (request_of_input (client w0) input0) new /\
    (graphql_requests new <= 1)%nat.
Proof.
  intros Hsame Hd ->.
  destruct (Do_requests w (vars_of d) login_reply reply) as (Hs & logins & calls & Hw & Hl & Hc).
  split; [by eapply same_configuration_trans|].
  destruct Hsame as (_ & Hq & Hu & _ & Ho).
  exists (logins ++ calls). split; [done|].
  rewrite graphql_requests_app. split.
  - apply Forall_app. split.
    + destruct Hl as [->|(o & -> & Hoa & _)]; [done|].
      apply Forall_singleton. simpl. congruence.
    + destruct Hc as [[_ ->]|(_ & hdr & body & -> & Hb)]; [done|].
      apply Forall_singleton. simpl. split; [done|]. exists d. split; [done|]. congruence.
  - destruct Hl as [->|(o & -> & _)]; destruct Hc as [[_ ->]|(_ & hdr & body & -> & _)];
      unfold graphql_requests; simpl; lia.
Qed.

Lemma step_wire ev s s' :
  tracked input0 s -> wire_ok w0 input0 s -> step ev s = Some s' -> wire_ok w0 input0 s'.
Proof.
  intros (started & current & _ & _ & _ & Hws) (Hsame & new & Hwire & Hall & Hn) Hstep.
  unfold wire_ok.
  step_cases Hstep; simpl in *;
    try match goal with
    | Hl : workers ?s0 !! ?i = Some ?g |- context [<[?i := ?g']> (workers ?s0)] =>
        pose proof (sum_worker_insert called _ _ _ g' Hl) as Hsum;
        destruct (Hws _ _ Hl) as (_ & (d & Hd & Hvars) & _);
        apply list_elem_of_lookup_2 in Hd
    end;
    unfold called in *; simpl in *;
    repeat match goal with Hg : g_pc _ = _ |- _ => rewrite Hg in * end;
    simpl in *;
    lazymatch goal with
    | Hp : processRequest (world s) ?v ?lr ?r = (?w1, _) |- _ =>
        pose proof (processRequest_world (world s) v lr r) as Hw1;
        rewrite Hp in Hw1; simpl in Hw1; subst w1;
        destruct (request_of_input_Do (world s) v lr r d Hsame Hd Hvars)
          as (Hsame' & sent & Hsent & Hreq & Hone);
        (split; [done|]); exists (new ++ sent);
        rewrite Hsent, Hwire, <- app_assoc, graphql_requests_app;
        (split; [done|]); (split; [by apply Forall_app|lia])
    | |- context [advance ?dt (world s)] =>
        (split; [eapply same_configuration_trans; [done|apply same_configuration_advance]|]);
        exists new; rewrite wire_advance; by repeat split
    | |- _ =>
        (split; [done|]); exists new; (split; [done|]); (split; [done|]);
        rewrite ?map_app, ?list_sum_app; simpl; lia
    end.
Qed.

End Wire.

(** No request is made up and none is repeated. Of what a run over fewer
    than 2^63 - 1 records sends while the decoder has kept no error, every
    login request is that of the configured OAuth exchange and every GraphQL
    request goes to the configured URL with, as its body, the configured
    query and the variables of a record of the input; and the GraphQL
    requests are at most one for each goroutine that is past its call: a
    failed call is not retried. *)
Theorem requests_of_a_run `{GoLib} w input out err st connections s :
  Z.of_nat (length input) + 1 < 2 ^ 63 ->
  reachable (RunWith w input out err st connections) s ->
  dec_err s = None ->
  exists sent,
    wire (world s) = wire w ++ sent /\
    Forall (request_of_input (client w) input) sent /\
    (graphql_requests sent <= list_sum (map called (workers s)))%nat /\
    (graphql_requests sent <= length input)%nat.
Proof.
  intros Hb Hreach Hde.
  assert (Hinv : tracked input s /\ wire_ok w input s).
  { revert Hde. revert Hreach.
    apply (reachable_invariant
             (fun s => dec_err s = None -> tracked input s /\ wire_ok w input s)).
    - intros _. split.
      + exists [], []. simpl. by repeat split.
      + split; [apply same_configuration_refl|]. exists []. simpl.
        rewrite app_nil_r. by repeat split.
    - intros ev s1 s2 Hinv Hstep Hde.
      destruct (Hinv (dec_err_stays _ _ _ Hstep Hde)) as [Ht Hw].
      split; [by eapply step_tracked|by eapply step_wire]. }
  destruct Hinv as ((started & current & Hin & Hlen & _) & _ & sent & Hwire & Hall & Hn).
  exists sent. do 3 (split; [done|]).
  pose proof (f_equal length Hin) as Hlens. rewrite !length_app in Hlens.
  assert (Hle : (list_sum (map called (workers s)) <= length (workers s))%nat).
  { clear. induction (workers s) as [|g ws IH]; simpl; [lia|].
    unfold called at 1. destruct (g_pc g); lia. }
  lia.
Qed.

(** ** The statistics *)

Lemma wrap64_add_l a n : wrap64 (wrap64 a + n) = wrap64 (a + n).
Proof.
  unfold wrap64. f_equal.
  replace ((a + 2 ^ 63) mod 2 ^ 64 - 2 ^ 63 + n + 2 ^ 63) with ((a + 2 ^ 63) mod 2 ^ 64 + n) by lia.
  rewrite Zplus_mod_idemp_l. f_equal. lia.
Qed.

Lemma count_calls_VerboseStats calls p e :
  - 2 ^ 63 <= p < 2 ^ 63 -> - 2 ^ 63 <= e < 2 ^ 63 ->
  count_calls calls (VerboseStats p e) =
  VerboseStats (wrap64 (p + Z.of_nat (count_occ bool_dec calls true)))
               (wrap64 (e + Z.of_nat (count_occ bool_dec calls false))).
Proof.
  revert p e. induction calls as [|c calls IH]; intros p e Hp He.
  - simpl. by rewrite !Z.add_0_r, !wrap64_small.
  - assert (Hw : forall z, - 2 ^ 63 <= wrap64 z < 2 ^ 63).
    { intros z. unfold wrap64. pose proof (Z.mod_pos_bound (z + 2 ^ 63) (2 ^ 64)). lia. }
    unfold count_calls in *. destruct c; simpl.
    + rewrite IH by done. rewrite wrap64_add_l. f_equal; f_equal; lia.
    + rewrite IH by done. rewrite wrap64_add_l. f_equal; f_equal; lia.
Qed.

(** The counters after any sequence of [AddProcessed] and [AddError] calls,
    in whatever order the goroutines make them: with verbose statistics
    [Values] returns the number of calls of each kind (as an int64), without
    them it returns zeros. *)
Theorem Values_after_calls calls verbose :
  Values (count_calls calls (PrintStats verbose)) =
  if verbose
  then (wrap64 (Z.of_nat (count_occ bool_dec calls true)),
        wrap64 (Z.of_nat (count_occ bool_dec calls false)))
  else (0, 0).
Proof.
  destruct verbose; simpl.
  - by rewrite count_calls_VerboseStats by lia.
  - unfold count_calls. induction calls as [|c calls IH]; simpl; [done|].
    by destruct c.
Qed.

(** ** The files of a run *)

Section Files.
Context `{GoLib}.

(** Nothing is created before the query and the input are open. If the
    query file cannot be read, or the input file cannot be opened, [Run]
    fails without having created (and so truncated) any file. *)
Theorem no_output_before_input os config :
  (Startup.readFile os (QueryFile config)).2.2 <> None \/
  is_error (Startup.openInput os (InputFile config)).2 = true ->
  is_error (Startup.Run os config).2 = true /\
  Startup.created (Startup.Run os config).1 = [].
Proof.
  unfold Startup.Run, Startup.readFile, Startup.openInput.
  destruct (Startup.Open os (Startup.Clean os (QueryFile config))) as [f|e]; simpl.
  2:{ by intros _. }
  destruct (Startup.read_error f) as [e|]; simpl; [by intros _|].
  intros [Hq|Hi]; [done|]. revert Hi.
  destruct (decide (InputFile config = "")); simpl; [done|].
  by destruct (Startup.Open os (Startup.Clean os (InputFile config))).
Qed.

(** The headers are looked at last. When [NewClient] rejects the configured
    headers, the query and the input being readable and the outputs
    creatable, [Run] returns the error of [NewClient], and by then it has
    created every output file the configuration names. *)
Theorem bad_headers_after_outputs os config query e :
  (Startup.readFile os (QueryFile config)).2 = (query, None) ->
  is_error (Startup.openInput os (InputFile config)).2 = false ->
  is_error (Startup.openOutput os (OutputFile config) (Startup.Stdout os)).2 = false ->
  is_error (Startup.openOutput os (ErrorFile config) (Startup.Stderr os)).2 = false ->
  NewClient config query = Failed e ->
  (Startup.Run os config).2 = Failed e /\
  Startup.created (Startup.Run os config).1 =
  Startup.named os (OutputFile config) ++ Startup.named os (ErrorFile config).
Proof.
  unfold Startup.Run, Startup.named.
  destruct (Startup.readFile os (QueryFile config)) as [c1 [q eq]] eqn:Hq.
  assert (Hc1 : Startup.created c1 = []).
  { unfold Startup.readFile in Hq. by injection Hq as <- _. }
  simpl. intros [= -> ->].
  destruct (Startup.openInput os (InputFile config)) as [c2 [input|e2]] eqn:Hi; simpl; [|done].
  assert (Hc2 : Startup.created c2 = []).
  { unfold Startup.openInput in Hi. destruct (decide (InputFile config = ""));
      by injection Hi as <- _. }
  intros _. unfold Startup.openOutput.
  destruct (decide (OutputFile config = "")); simpl;
    destruct (decide (ErrorFile config = "")); simpl;
    repeat match goal with
    | |- context [Startup.Create os ?p] => destruct (Startup.Create os p); simpl
    end;
    try done; intros _ _ ->; simpl;
    (split; [done|]); unfold Startup.created in *;
    rewrite ?flat_map_app, ?Hc1, ?Hc2; by simpl.
Qed.

(** With no file named but the query, [Run] opens the query file and
    nothing else, creates nothing, and starts [RunWith] on the standard
    streams: the records of standard input, standard output for the
    responses and standard error for the failures. *)
Theorem Run_on_standard_streams os config s0 :
  InputFile config = "" -> OutputFile config = "" -> ErrorFile config = "" ->
  (Startup.Run os config).2 = Ok s0 ->
  (Startup.Run os config).1 = [Startup.SysOpen (Startup.Clean os (QueryFile config))] /\
  input s0 = Startup.NewDecoder os (Startup.Stdin os) /\
  output s0 = Startup.Stdout os /\ errOutput s0 = Startup.Stderr os.
Proof.
  intros Hi Ho He. unfold Startup.Run, Startup.readFile, Startup.openInput, Startup.openOutput.
  rewrite Hi, Ho, He. simpl.
  destruct (Startup.Open os _) as [f|e]; simpl; [|done].
  destruct (Startup.read_error f); simpl; [done|].
  destruct (NewClient config (Startup.content f)); simpl; [|done].
  by intros [= <-].
Qed.

(** [Startup.Run] returns what [Run.Run] does on the same files, when the
    two outputs have the same default. *)
Lemma Run_agrees os config :
  ErrorFile config <> "" \/ Startup.Stderr os = Startup.Stdout os ->
  (Startup.Run os config).2 = Run (Startup.files_of os) config.
Proof.
  intros Herr. unfold Startup.Run, Run, Startup.files_of.
  cbn [readFile openInput openOutput].
  destruct (Startup.readFile os (QueryFile config)) as [c1 [q [e|]]]; simpl; [done|].
  destruct (Startup.openInput os (InputFile config)) as [c2 [input|e2]]; simpl; [|done].
  destruct (Startup.openOutput os (OutputFile config) (Startup.Stdout os))
    as [c3 [output|e3]]; simpl; [|done].
  assert (Hsame : (Startup.openOutput os (ErrorFile config) (Startup.Stderr os)).2 =
                  (Startup.openOutput os (ErrorFile config) (Startup.Stdout os)).2).
  { unfold Startup.openOutput. destruct (decide (ErrorFile config = "")); [|done].
    simpl. destruct Herr as [Hne|Heq]; [done|by rewrite Heq]. }
  destruct (Startup.openOutput os (ErrorFile config) (Startup.Stderr os)) as [c4 r4].
  simpl in Hsame. rewrite <- Hsame.
  destruct r4 as [errOutput|e4]; simpl; [|done].
  by destruct (NewClient config q).
Qed.

End Files.

(** ** Progress and termination *)

Section Progress.
Context `{GoLib}.







Lemma holding_worker ws :
  (0 < list_sum (map holding ws))%nat ->
  exists i g, ws !! i = Some g /\ holding g = 1%nat.
Proof.
  induction ws as [|g ws IH]; simpl; [lia|].
  destruct (holding g) as [|[|n]] eqn:Hg.
  - intros Hpos. destruct (IH Hpos) as (i & g0 & Hi & Hg0). by exists (S i), g0.
  - intros _. by exists 0%nat, g.
  - unfold holding in Hg. destruct (g_pc g); lia.
Qed.

Lemma unfinished_worker ws :
  forallb finished ws = false -> exists i g, ws !! i = Some g /\ finished g = false.
Proof.
  induction ws as [|g ws IH]; simpl; [done|].
  destruct (finished g) eqn:Hg; simpl.
  - intros Hws. destruct (IH Hws) as (i & g0 & Hi & Hg0). by exists (S i), g0.
  - intros _. by exists 0%nat, g.
Qed.

(** A goroutine that has not finished can take a step, whatever the state
    of the loop. *)
Lemma worker_can_step s i g :
  halted s = false -> workers s !! i = Some g -> finished g = false ->
  exists ev s', is_program_event ev = true /\ step ev s = Some s'.
Proof.
  intros Hh Hi Hf. unfold finished in Hf.
  destruct (g_pc g) as [|w| | |] eqn:Hpc; [| | | |done].
  - exists (EvCall i (TransportError "") (TransportError "")). unfold step. rewrite Hh.
    unfold call_step. rewrite Hi, Hpc.
    destruct (processRequest _ _ _ _) as [w1 [response e]]. by eexists.
  - exists (EvWorker i). unfold step. rewrite Hh. unfold worker_step. rewrite Hi, Hpc.
    destruct (write_step w s) as [s1 [w'|[e|]]]; by eexists.
  - exists (EvWorker i). unfold step. rewrite Hh. unfold worker_step. rewrite Hi, Hpc.
    destruct (decide _); by eexists.
  - exists (EvWorker i). unfold step. rewrite Hh. unfold worker_step. rewrite Hi, Hpc.
    by eexists.
Qed.

(** No deadlock. With at least one connection, as long as [RunWith] has not
    returned and no goroutine has panicked, the program can take a step: the
    loop is never blocked in [Acquire] or in [wg.Wait] with every goroutine
    blocked or gone. *)
Theorem no_deadlock w input0 out err st connections s :
  1 <= connections ->
  reachable (RunWith w input0 out err st connections) s ->
  halted s = false ->
  exists ev s', is_program_event ev = true /\ step ev s = Some s'.
Proof.
  intros Hconn Hreach Hh.
  destruct (reachable_permits _ _ _ _ _ _ _ Hreach) as [Hp Hsize].
  destruct (main s) as [|w1 v|v|w1 v| |e] eqn:Hm.
  - exists EvMain. unfold step. rewrite Hh. unfold main_step. rewrite Hm.
    destruct (dec_err s); [by eexists|].
    destruct (input s) as [|[v|e v|e] rest]; by eexists.
  - exists EvMain. unfold step. rewrite Hh. unfold main_step. rewrite Hm.
    destruct (write_step w1 s) as [s1 [w'|[e|]]]; by eexists.
  - destruct (ctx_err s) as [e|] eqn:Hctx.
    { exists EvAcquireFails. unfold step. rewrite Hh. unfold acquire_fails.
      rewrite Hm, Hctx. by eexists. }
    destruct (decide (sem_size s - sem_cur s >= 1)) as [Hfree|Hfull].
    { exists EvMain. unfold step. rewrite Hh. unfold main_step. rewrite Hm.
      destruct (decide _); [|done]. by eexists. }
    destruct (Hp Hctx) as (Hcur & _ & _). unfold in_flight in Hcur.
    destruct (holding_worker (workers s)) as (i & g & Hi & Hg); [lia|].
    apply (worker_can_step s i g Hh Hi). unfold finished.
    unfold holding in Hg. by destruct (g_pc g).
  - exists EvMain. unfold step. rewrite Hh. unfold main_step. rewrite Hm.
    destruct (write_step w1 s) as [s1 [w'|[e|]]]; by eexists.
  - destruct (forallb finished (workers s)) eqn:Hall.
    { exists EvMain. unfold step. rewrite Hh. unfold main_step. rewrite Hm, Hall.
      by eexists. }
    destruct (unfinished_worker _ Hall) as (i & g & Hi & Hg).
    by apply (worker_can_step s i g Hh Hi).
  - unfold halted in Hh. by rewrite Hm in Hh.
Qed.

End Progress.

(** *** Examples for the further properties *)

(** The ceiling at three records and two connections, rows 1 and 2 in
    flight and the loop waiting in [Acquire]. *)
Lemma in_flight_bounded_witness :
  sem_cur (Sample.after Sample.three_rows_start Sample.three_rows) =
    Z.of_nat (in_flight (Sample.after Sample.three_rows_start Sample.three_rows)) /\
  Z.of_nat (in_flight (Sample.after Sample.three_rows_start Sample.three_rows)) <= Z.max 0 2 /\
  (main (Sample.after Sample.three_rows_start Sample.three_rows) = Returned None ->
   sem_cur (Sample.after Sample.three_rows_start Sample.three_rows) = 0).
Proof.
  apply (in_flight_bounded (H:=Sample.lib) (Sample.a_world (Sample.a_client [] None None))
           [Decoded_ok (Sample.x_is "1"); Decoded_ok (Sample.x_is "2");
            Decoded_ok (Sample.x_is "3")]
           Sample.no_output Sample.no_output (PrintStats true) 2).
  - exists Sample.three_rows_start. vm_compute. reflexivity.
  - reflexivity.
Defined.

(** The endings at a run whose error stream broke before the failure
    record of row 1 was written: [RunWith] has returned the stream's error. *)
Lemma abnormal_ends_witness :
  (forall e, main (Sample.after Scenario.broken_schedule Sample.malformed_run)
             = Returned (Some e) ->
     broken (errOutput (Sample.after Scenario.broken_schedule Sample.malformed_run))
     = Some e) /\
  (forall e, crashed (Sample.after Scenario.broken_schedule Sample.malformed_run) = Some e ->
     broken (output (Sample.after Scenario.broken_schedule Sample.malformed_run)) = Some e \/
     broken (errOutput (Sample.after Scenario.broken_schedule Sample.malformed_run)) = Some e \/
     (e = "semaphore: released more than held" /\
      ctx_err (Sample.after Scenario.broken_schedule Sample.malformed_run) <> None)).
Proof.
  apply (abnormal_ends (H:=Sample.lib) (Sample.a_world (Sample.a_client [] None None))
           [Decoded_err "json: cannot unmarshal array into Go value" (Some [])]
           Sample.no_output Sample.no_output (PrintStats true) 1).
  exists Scenario.broken_schedule. vm_compute. reflexivity.
Defined.

(** A clean run at the completed run of one malformed record. *)
Lemma clean_run_ends_well_witness :
  crashed (Sample.after Sample.malformed_schedule Sample.malformed_run) = None /\
  forall e, main (Sample.after Sample.malformed_schedule Sample.malformed_run)
            <> Returned (Some e).
Proof.
  apply (clean_run_ends_well (H:=Sample.lib) (Sample.a_world (Sample.a_client [] None None))
           [Decoded_err "json: cannot unmarshal array into Go value" (Some [])]
           Sample.no_output Sample.no_output (PrintStats true) 1).
  - exists Sample.malformed_schedule. vm_compute. reflexivity.
  - reflexivity.
  - reflexivity.
  - reflexivity.
Defined.

(** A failed login at the OAuth client, the login server unreachable. *)
Lemma failed_login_not_cached_witness :
  client (ensureValidToken (H:=Sample.lib) Sample.oauth_world
            (TransportError "connection refused")).1 = client Sample.oauth_world /\
  timers (ensureValidToken (H:=Sample.lib) Sample.oauth_world
            (TransportError "connection refused")).1 = timers Sample.oauth_world /\
  clock (ensureValidToken (H:=Sample.lib) Sample.oauth_world
           (TransportError "connection refused")).1 = clock Sample.oauth_world /\
  token (client Sample.oauth_world) = None /\
  oauth (client Sample.oauth_world) <> None /\
  forall reply',
    (ensureValidToken (H:=Sample.lib)
       (ensureValidToken (H:=Sample.lib) Sample.oauth_world
          (TransportError "connection refused")).1 reply').2 =
    (ensureValidToken (H:=Sample.lib) Sample.oauth_world reply').2.
Proof.
  apply (failed_login_not_cached (H:=Sample.lib) Sample.oauth_world
           (TransportError "connection refused") "connection refused").
  reflexivity.
Defined.

(** The client after the first call of an OAuth run: the token of the
    login is cached and its one timer is pending. *)
Lemma client_through_a_run_witness :
  same_configuration (client Sample.oauth_world)
    (client (world (Sample.after Scenario.one_call Scenario.oauth_run))) /\
  (length (timers (world (Sample.after Scenario.one_call Scenario.oauth_run))) <= 1)%nat /\
  (token (client (world (Sample.after Scenario.one_call Scenario.oauth_run))) = None ->
   timers (world (Sample.after Scenario.one_call Scenario.oauth_run)) = []).
Proof.
  apply (client_through_a_run (H:=Sample.lib) Sample.oauth_world [Decoded_ok (Some [])]
           Sample.no_output Sample.no_output SilentStats 1).
  - exists Scenario.one_call. vm_compute. reflexivity.
  - left. reflexivity.
Defined.

(** The configured token at a configuration with a bearer token and OAuth
    credentials, after the first call. *)
Lemma configured_token_is_kept_witness :
  client (world (Sample.after Scenario.one_call Scenario.token_run)) = Scenario.token_client /\
  timers (world (Sample.after Scenario.one_call Scenario.token_run)) = [] /\
  Forall (fun r => exists body,
            r = GraphQLRequest (URL Scenario.token_config)
                  (request_header (H:=Sample.lib) Scenario.token_client
                     (BearerToken Scenario.token_config)) body)
         (wire (world (Sample.after Scenario.one_call Scenario.token_run))).
Proof.
  apply (configured_token_is_kept (H:=Sample.lib) Scenario.token_config "query Q"
           Scenario.token_client [Decoded_ok (Some [])] Sample.no_output Sample.no_output
           SilentStats 1).
  - reflexivity.
  - left. discriminate.
  - exists Scenario.one_call. vm_compute. reflexivity.
Defined.

(** The goroutines of three records, two of them started. *)
Lemma goroutines_follow_input_witness :
  (length (workers (Sample.after Sample.three_rows_start Sample.three_rows)) <= 3)%nat /\
  (main (Sample.after Sample.three_rows_start Sample.three_rows) = Returned None ->
   length (workers (Sample.after Sample.three_rows_start Sample.three_rows)) = 3%nat) /\
  forall i g,
    workers (Sample.after Sample.three_rows_start Sample.three_rows) !! i = Some g ->
    g_row g = Z.of_nat i + 1 /\
    exists d, [Decoded_ok (Sample.x_is "1"); Decoded_ok (Sample.x_is "2");
               Decoded_ok (Sample.x_is "3")] !! i = Some d /\
              g_variables g = vars_of d.
Proof.
  apply (goroutines_follow_input (H:=Sample.lib)
           (Sample.a_world (Sample.a_client [] None None))
           [Decoded_ok (Sample.x_is "1"); Decoded_ok (Sample.x_is "2");
            Decoded_ok (Sample.x_is "3")]
           Sample.no_output Sample.no_output (PrintStats true) 2).
  - reflexivity.
  - exists Sample.three_rows_start. vm_compute. reflexivity.
  - reflexivity.
Defined.

(** The records of the completed run of three records, the second of
    them [null] and answered by [null], the third answered by a 500. *)
Lemma records_match_input_witness :
  Forall (response_record Scenario.null_input)
    (new_output Sample.no_output (Sample.after Scenario.null_schedule Scenario.null_run)) /\
  Forall (failure_record Scenario.null_input)
    (new_errOutput Sample.no_output (Sample.after Scenario.null_schedule Scenario.null_run)).
Proof.
  apply (records_match_input (H:=Sample.lib) (Sample.a_world (Sample.a_client [] None None))
           Scenario.null_input Sample.no_output Sample.no_output (PrintStats true) 1).
  - reflexivity.
  - exists Scenario.null_schedule. vm_compute. reflexivity.
  - reflexivity.
Defined.

(** The records of that run as they are written: the nil input of the
    record [null] and the nil map of the body [null] on the output stream,
    the body of the 500 as a string on the error stream. *)
Lemma null_record_round_trip :
  exists s,
    exec (H:=Sample.lib) Scenario.null_schedule Scenario.null_run = Some s /\
    main s = Returned None /\
    written (output s) =
      [{| Row := 1; Input := Sample.x_is "1"; Output := AMap (Sample.doubled "2");
          Error := None |};
       {| Row := 2; Input := None; Output := AMap None; Error := None |}] /\
    written (errOutput s) =
      [{| Row := 3; Input := Sample.x_is "3"; Output := AString "oops";
          Error := Some "invalid status code 500" |}].
Proof. eexists. split; [vm_compute; reflexivity|]. by repeat split. Qed.

(** The rows of the output stream at the completed run of three records. *)
Lemma output_rows_distinct_witness :
  NoDup (map Row (new_output Sample.no_output
                    (Sample.after (Sample.three_rows_start ++ Sample.three_rows_finish)
                       Sample.three_rows))).
Proof.
  apply (output_rows_distinct (H:=Sample.lib) (Sample.a_world (Sample.a_client [] None None))
           [Decoded_ok (Sample.x_is "1"); Decoded_ok (Sample.x_is "2");
            Decoded_ok (Sample.x_is "3")]
           Sample.no_output Sample.no_output (PrintStats true) 2).
  - reflexivity.
  - exists (Sample.three_rows_start ++ Sample.three_rows_finish). vm_compute. reflexivity.
  - reflexivity.
Defined.

(** The requests of the completed run of three records: three. *)
Lemma requests_of_a_run_witness :
  exists sent,
    wire (world (Sample.after (Sample.three_rows_start ++ Sample.three_rows_finish)
                   Sample.three_rows)) =
    wire (Sample.a_world (Sample.a_client [] None None)) ++ sent /\
    Forall (request_of_input (H:=Sample.lib)
              (client (Sample.a_world (Sample.a_client [] None None)))
              [Decoded_ok (Sample.x_is "1"); Decoded_ok (Sample.x_is "2");
               Decoded_ok (Sample.x_is "3")]) sent /\
    (graphql_requests sent <=
     list_sum (map called
                 (workers (Sample.after (Sample.three_rows_start ++ Sample.three_rows_finish)
                             Sample.three_rows))))%nat /\
    (graphql_requests sent <= 3)%nat.
Proof.
  apply (requests_of_a_run (H:=Sample.lib) (Sample.a_world (Sample.a_client [] None None))
           [Decoded_ok (Sample.x_is "1"); Decoded_ok (Sample.x_is "2");
            Decoded_ok (Sample.x_is "3")]
           Sample.no_output Sample.no_output (PrintStats true) 2).
  - reflexivity.
  - exists (Sample.three_rows_start ++ Sample.three_rows_finish). vm_compute. reflexivity.
  - reflexivity.
Defined.

(** The rows of the completed run of three records. *)
Lemma completed_run_rows_exact_witness :
  map Row (records (Sample.after (Sample.three_rows_start ++ Sample.three_rows_finish)
                      Sample.three_rows)) ≡ₚ seqZ 1 3 /\
  length (records (Sample.after (Sample.three_rows_start ++ Sample.three_rows_finish)
                     Sample.three_rows)) = 3%nat /\
  NoDup (map Row (records (Sample.after (Sample.three_rows_start ++ Sample.three_rows_finish)
                             Sample.three_rows))).
Proof.
  apply (completed_run_rows_exact (H:=Sample.lib)
           (Sample.a_world (Sample.a_client [] None None))
           [Decoded_ok (Sample.x_is "1"); Decoded_ok (Sample.x_is "2");
            Decoded_ok (Sample.x_is "3")]
           Sample.no_output Sample.no_output (PrintStats true) 2).
  - reflexivity.
  - reflexivity.
  - reflexivity.
  - reflexivity.
  - exists (Sample.three_rows_start ++ Sample.three_rows_finish). vm_compute. reflexivity.
  - reflexivity.
  - reflexivity.
  - reflexivity.
Defined.

(** A completed run of two records on one connection. *)
Lemma a_run_completes_witness :
  exists s,
    reachable (H:=Sample.lib)
      (RunWith Sample.plain_world [Decoded_ok (Some []); Decoded_ok (Some [])] Sample.no_output
         Sample.no_output SilentStats 1) s /\
    main s = Returned None /\ crashed s = None /\ ctx_err s = None.
Proof.
  apply (a_run_completes (H:=Sample.lib) Sample.plain_world [Decoded_ok (Some []); Decoded_ok (Some [])]
           Sample.no_output Sample.no_output SilentStats 1).
  - reflexivity.
  - lia.
  - reflexivity.
Defined.



(** No deadlock where the loop waits in [Acquire] for row 2: the goroutine
    of row 1 can step. *)
Lemma no_deadlock_witness :
  exists ev s', is_program_event ev = true /\
                step (H:=Sample.lib) ev Sample.waiting_run = Some s'.
Proof.
  apply (no_deadlock (H:=Sample.lib) (Sample.a_world (Sample.a_client [] None None))
           [Decoded_ok (Some []); Decoded_ok (Some [])] Sample.no_output Sample.no_output
           (PrintStats true) 1).
  - lia.
  - exists [EvMain; EvMain; EvMain]. vm_compute. reflexivity.
  - reflexivity.
Defined.

(** A query file that does not exist: nothing is created. *)
Lemma no_output_before_input_witness :
  is_error (Startup.Run (H:=Sample.lib) Scenario.os Scenario.missing_query_config).2 = true /\
  Startup.created (Startup.Run (H:=Sample.lib) Scenario.os Scenario.missing_query_config).1
  = [].
Proof.
  apply (no_output_before_input (H:=Sample.lib) Scenario.os Scenario.missing_query_config).
  left. vm_compute. discriminate.
Defined.

(** A header line the MIME reader rejects: both outputs are created. *)
Lemma bad_headers_after_outputs_witness :
  (Startup.Run (H:=Scenario.strict_lib) Scenario.os Scenario.bad_header_config).2 =
    Failed "malformed MIME header line" /\
  Startup.created (Startup.Run (H:=Scenario.strict_lib) Scenario.os
                     Scenario.bad_header_config).1 =
  Startup.named Scenario.os (OutputFile Scenario.bad_header_config) ++
  Startup.named Scenario.os (ErrorFile Scenario.bad_header_config).
Proof.
  apply (bad_headers_after_outputs (H:=Scenario.strict_lib) Scenario.os
           Scenario.bad_header_config "query Q" "malformed MIME header line");
    reflexivity.
Defined.

(** Only the query named: the run is on the standard streams. *)
Lemma Run_on_standard_streams_witness :
  (Startup.Run (H:=Sample.lib) Scenario.os Scenario.standard_config).1 =
    [Startup.SysOpen (Startup.Clean Scenario.os (QueryFile Scenario.standard_config))] /\
  input Scenario.standard_start = Startup.NewDecoder Scenario.os (Startup.Stdin Scenario.os) /\
  output Scenario.standard_start = Startup.Stdout Scenario.os /\
  errOutput Scenario.standard_start = Startup.Stderr Scenario.os.
Proof.
  apply (Run_on_standard_streams (H:=Sample.lib) Scenario.os Scenario.standard_config
           Scenario.standard_start); reflexivity.
Defined.
